(** * The tiered job-queue dispatcher of [server.js]

    A shallow embedding of the request pipeline of [server.js]: the
    validator and intake handler, the main-queue dispatcher, the three
    regional workers with the mock backend, the periodic reporter and the
    shutdown handler.  Handlers are written in a small state-and-exception
    monad over the process state [World]; what the environment decides (the
    clock, [Math.random], whether a promise of the queue library resolves or
    rejects, which timer fires) is an explicit argument of each step. *)

From Stdlib Require Import ZArith QArith Qround List String Ascii Bool Lia.
From Stdlib Require Import DecimalString.
Import ListNotations.

Local Open Scope string_scope.
Local Open Scope list_scope.
Local Open Scope Z_scope.

(** ** JavaScript values *)

Module Js.

(** Function values: [() => {}], the only one the program builds, and a
    chainable method that returns its receiver (what [status] is on the
    response object of the HTTP server). *)
Inductive Func : Type :=
| FNoop
| FSelf.

(** The values that job data, headers and the stub response object hold. *)
Inductive value : Type :=
| VUndefined
| VStr (s : string)
| VNum (n : Z)
| VFun (f : Func).

(** An object literal: its properties in insertion order. *)
Definition object : Type := list (string * value).

(** The errors the program can meet. *)
Inductive error : Type :=
| TypeError (msg : string)
| StoreError (msg : string).

(** [o.k]: the first binding of [k], [undefined] when there is none. *)
Fixpoint get (k : string) (o : object) : value :=
  match o with
  | [] => VUndefined
  | (k', v) :: o' => if String.eqb k k' then v else get k o'
  end.

(** [k in o]. *)
Fixpoint has (k : string) (o : object) : bool :=
  match o with
  | [] => false
  | (k', _) :: o' => String.eqb k k' || has k o'
  end.

(** [!v]. *)
Definition falsy (v : value) : bool :=
  match v with
  | VUndefined => true
  | VStr s => String.eqb s ""
  | VNum n => Z.eqb n 0
  | VFun _ => false
  end.

(** [v === "s"]. *)
Definition is_str (v : value) (s : string) : bool :=
  match v with
  | VStr t => String.eqb t s
  | _ => false
  end.

Definition string_of_Z (n : Z) : string :=
  NilZero.string_of_int (Z.to_int n).

Definition string_of_nat (n : nat) : string :=
  string_of_Z (Z.of_nat n).

(** [`${v}`]: how a template literal renders a value. *)
Definition tmpl (v : value) : string :=
  match v with
  | VUndefined => "undefined"
  | VStr s => s
  | VNum n => string_of_Z n
  | VFun _ => "() => {}"
  end.

(** [a[i]] on an array: [undefined] (here [None]) out of range. *)
Definition index {A : Type} (a : list A) (i : Z) : option A :=
  if i <? 0 then None else nth_error a (Z.to_nat i).

End Js.

Import Js.

(** ** The process state *)

Inductive QueueId : Type :=
| MainQ
| UsaQ
| EuropeQ
| IndiaQ.

Definition QueueId_eqb (a b : QueueId) : bool :=
  match a, b with
  | MainQ, MainQ | UsaQ, UsaQ | EuropeQ, EuropeQ | IndiaQ, IndiaQ => true
  | _, _ => false
  end.

(** How a promise of the queue library settles. *)
Inductive Settle : Type :=
| Resolved
| Rejected (e : error).

(** Modelled from the spec: the job queue primitive is the [bull] library,
    which is not part of the repository's sources.  Following the spec's
    "Job Queue": a named FIFO of jobs, the head being the job in work. *)
Record Queue : Type := mkQueue {
  name : string;
  jobs : list object
}.

(** Modelled from the spec: [size] of the job queue, "current count of
    pending + in-flight jobs". *)
Definition size (q : Queue) : nat := List.length (jobs q).

(** Modelled from the spec: what a resolved [add] of the job queue does,
    "appends to the tail". *)
Definition enqueue (x : object) (q : Queue) : Queue :=
  mkQueue (name q) (jobs q ++ [x]).

(** Modelled from the spec: what the job queue does when the handler
    signals completion, the job is "removed immediately after successful
    processing"; jobs are driven "in FIFO order, one at a time". *)
Definition complete (q : Queue) : Queue :=
  mkQueue (name q) (tl (jobs q)).

(** A trace log entry: [{ queue, request }]. *)
Record LogEntry : Type := mkLog {
  queue : string;
  request : object
}.

(** The callback of a mock endpoint handed to [setTimeout]:
    [() => { res.status(code).json(body) }], with [res] captured. *)
Record Timer : Type := mkTimer {
  delay : Z;
  cb_res : object;
  cb_status : Z;
  cb_body : object
}.

Inductive Signal : Type :=
| SIGTERM
| SIGINT.

(** What the process does that can be seen from outside, oldest first.
    [EvAdd], [EvDone] and [EvDrain] record the calls made to the queue
    library, [EvAddSettled] how the promise of an [add] settled, and
    [EvHandle] the call a worker of queue [q] makes to a mock endpoint. *)
Inductive Event : Type :=
| EvLog (line : string)
| EvError (line : string)
| EvErrorWith (line : string) (e : error)
| EvAdd (q : QueueId) (payload : object)
| EvAddSettled (q : QueueId) (payload : object) (o : Settle)
| EvDone (q : QueueId)
| EvHandle (q : QueueId) (endpoint : string) (req : object)
| EvDrain (q : QueueId)
| EvRespond (status : Z) (body : object)
| EvUncaught (e : error)
| EvExit (code : Z).

(** The process runs, has called [process.exit(code)], or has ended on an
    error that reached the event loop. *)
Inductive Proc : Type :=
| Running
| Exited (code : Z)
| Crashed (e : error).

Record World : Type := mkWorld {
  mainQueue : Queue;
  usaQueue : Queue;
  europeQueue : Queue;
  indiaQueue : Queue;
  queueLogs : list LogEntry;
  pendingAdds : list (QueueId * object);
  timers : list Timer;
  shutdowns : list (list QueueId);
  trace : list Event;
  proc : Proc
}.

(** The state when the module has been loaded. *)
Definition init : World :=
  mkWorld (mkQueue "mainQueue" []) (mkQueue "usaQueue" [])
          (mkQueue "europeQueue" []) (mkQueue "indiaQueue" [])
          [] [] [] [] [] Running.

Definition getQ (q : QueueId) (w : World) : Queue :=
  match q with
  | MainQ => mainQueue w
  | UsaQ => usaQueue w
  | EuropeQ => europeQueue w
  | IndiaQ => indiaQueue w
  end.

Definition setQ (q : QueueId) (x : Queue) (w : World) : World :=
  match q with
  | MainQ =>
      mkWorld x (usaQueue w) (europeQueue w) (indiaQueue w) (queueLogs w)
              (pendingAdds w) (timers w) (shutdowns w) (trace w) (proc w)
  | UsaQ =>
      mkWorld (mainQueue w) x (europeQueue w) (indiaQueue w) (queueLogs w)
              (pendingAdds w) (timers w) (shutdowns w) (trace w) (proc w)
  | EuropeQ =>
      mkWorld (mainQueue w) (usaQueue w) x (indiaQueue w) (queueLogs w)
              (pendingAdds w) (timers w) (shutdowns w) (trace w) (proc w)
  | IndiaQ =>
      mkWorld (mainQueue w) (usaQueue w) (europeQueue w) x (queueLogs w)
              (pendingAdds w) (timers w) (shutdowns w) (trace w) (proc w)
  end.

Definition set_queueLogs (l : list LogEntry) (w : World) : World :=
  mkWorld (mainQueue w) (usaQueue w) (europeQueue w) (indiaQueue w) l
          (pendingAdds w) (timers w) (shutdowns w) (trace w) (proc w).

Definition set_pendingAdds (l : list (QueueId * object)) (w : World) : World :=
  mkWorld (mainQueue w) (usaQueue w) (europeQueue w) (indiaQueue w)
          (queueLogs w) l (timers w) (shutdowns w) (trace w) (proc w).

Definition set_timers (l : list Timer) (w : World) : World :=
  mkWorld (mainQueue w) (usaQueue w) (europeQueue w) (indiaQueue w)
          (queueLogs w) (pendingAdds w) l (shutdowns w) (trace w) (proc w).

Definition set_shutdowns (l : list (list QueueId)) (w : World) : World :=
  mkWorld (mainQueue w) (usaQueue w) (europeQueue w) (indiaQueue w)
          (queueLogs w) (pendingAdds w) (timers w) l (trace w) (proc w).

Definition set_trace (l : list Event) (w : World) : World :=
  mkWorld (mainQueue w) (usaQueue w) (europeQueue w) (indiaQueue w)
          (queueLogs w) (pendingAdds w) (timers w) (shutdowns w) l (proc w).

Definition set_proc (p : Proc) (w : World) : World :=
  mkWorld (mainQueue w) (usaQueue w) (europeQueue w) (indiaQueue w)
          (queueLogs w) (pendingAdds w) (timers w) (shutdowns w) (trace w) p.

(** ** The monad of handlers: state that survives a throw *)

Inductive Result (A : Type) : Type :=
| Ok (a : A)
| Throw (e : error).
Arguments Ok {A} a.
Arguments Throw {A} e.

Definition M (A : Type) : Type := World -> Result A * World.

Definition ret {A : Type} (a : A) : M A := fun w => (Ok a, w).

Definition throw {A : Type} (e : error) : M A := fun w => (Throw e, w).

Definition bind {A B : Type} (m : M A) (k : A -> M B) : M B :=
  fun w =>
    match m w with
    | (Ok a, w') => k a w'
    | (Throw e, w') => (Throw e, w')
    end.

Declare Scope js_scope.
Delimit Scope js_scope with js.
Notation "x <- m ;; k" := (bind m (fun x => k))
  (at level 61, m at next level, right associativity) : js_scope.
Notation "m ;; k" := (bind m (fun _ => k))
  (at level 61, right associativity) : js_scope.
Local Open Scope js_scope.

(** [try { body } catch (error) { handler error } finally { final }]. *)
Definition try_catch_finally (body : M unit) (handler : error -> M unit)
    (final : M unit) : M unit :=
  fun w =>
    match body w with
    | (Ok _, w1) => final w1
    | (Throw e, w1) =>
        match handler e w1 with
        | (Ok _, w2) => final w2
        | (Throw e', w2) =>
            match final w2 with
            | (Ok _, w3) => (Throw e', w3)
            | (Throw e'', w3) => (Throw e'', w3)
            end
        end
    end.

Definition emit (e : Event) : M unit :=
  fun w => (Ok tt, set_trace (trace w ++ [e]) w).

Definition console_log (line : string) : M unit := emit (EvLog line).
Definition console_error (line : string) : M unit := emit (EvError line).
Definition console_error_with (line : string) (e : error) : M unit :=
  emit (EvErrorWith line e).

Definition read {A : Type} (f : World -> A) : M A := fun w => (Ok (f w), w).
Definition modify (f : World -> World) : M unit := fun w => (Ok tt, f w).

(** [queueLogs.push(entry)]. *)
Definition queueLogs_push (entry : LogEntry) : M unit :=
  modify (fun w => set_queueLogs (queueLogs w ++ [entry]) w).

(** [await q.add(payload)]: the call is made; the handler goes on once the
    promise has settled, with the job in the queue if it resolved and with
    the rejection thrown otherwise. *)
Definition await_add (q : QueueId) (payload : object) (o : Settle) : M unit :=
  emit (EvAdd q payload) ;;
  emit (EvAddSettled q payload o) ;;
  match o with
  | Resolved => modify (fun w => setQ q (enqueue payload (getQ q w)) w)
  | Rejected e => throw e
  end.

(** [q.add(payload)] without [await]: the call is made and the promise is
    left pending. *)
Definition add_nowait (q : QueueId) (payload : object) : M unit :=
  emit (EvAdd q payload) ;;
  modify (fun w => set_pendingAdds (pendingAdds w ++ [(q, payload)]) w).

(** [done()]: the job in work, the head of the queue, is complete. *)
Definition done (q : QueueId) : M unit :=
  emit (EvDone q) ;;
  modify (fun w => setQ q (complete (getQ q w)) w).

(** [l.forEach(f)]. *)
Fixpoint for_each {A : Type} (f : A -> M unit) (l : list A) : M unit :=
  match l with
  | [] => ret tt
  | x :: l' => f x ;; for_each f l'
  end.

(** [process.exit(code)]. *)
Definition exit (code : Z) : M unit :=
  emit (EvExit code) ;; modify (set_proc (Exited code)).

(** ** The mock backend *)

(** A function-valued property of [receiver] is called.  [FNoop] returns
    [undefined] (here [None]); a chainable method returns its receiver;
    anything else is not callable. *)
Definition call_method (receiver : string) (o : object) (k : string)
  : M (option object) :=
  match get k o with
  | VFun FNoop => ret None
  | VFun FSelf => ret (Some o)
  | _ => throw (TypeError (receiver ++ "." ++ k ++ " is not a function")%string)
  end.

(** [setTimeout(callback, delay)]. *)
Definition setTimeout (t : Timer) : M unit :=
  modify (fun w => set_timers (timers w ++ [t]) w).

(** The callback of both endpoints: [res.status(code).json(body)]. *)
Definition run_callback (t : Timer) : M unit :=
  r <- call_method "res" (cb_res t) "status" ;;
  match r with
  | None =>
      throw (TypeError "Cannot read properties of undefined (reading 'json')")
  | Some o =>
      _ <- call_method "res.status(...)" o "json" ;;
      emit (EvRespond (cb_status t) (cb_body t))
  end.

Record MockApi : Type := mkApi {
  endpoint : string;
  (** [handleRequest(req, res)], with the value [Math.random()] returns *)
  handleRequest : Q -> object -> object -> M unit
}.

Definition mockRESTAPIs : list MockApi :=
  [ mkApi "/api/v1/resource"
      (fun rnd req res =>
         let delay := Qfloor (rnd * inject_Z 2000) + 500 in
         setTimeout
           (mkTimer delay res 200 [("message", VStr "REST API v1 response")]));
    mkApi "/api/v2/resource"
      (fun rnd req res =>
         let delay := Qfloor (rnd * inject_Z 1000) + 200 in
         setTimeout
           (mkTimer delay res 200 [("message", VStr "REST API v2 response")]))
  ].

(** ** Request validation and intake *)

Record Request : Type := mkReq {
  req_method : value;
  req_url : value;
  req_headers : object
}.

(** [res.status(status).json(body)] on the response of the HTTP server. *)
Definition respond (status : Z) (body : object) : M unit :=
  emit (EvRespond status body).

Definition validateRequest (req : Request) (next : M unit) : M unit :=
  let method := req_method req in
  let url := req_url req in
  let location := get "location" (req_headers req) in
  if falsy method || falsy url || falsy location then
    respond 400 [("error", VStr "Invalid request")]
  else
    next.

(** [now] is what [Date.now()] returns. *)
Definition manageQueues (now : Z) (req : Request) : M unit :=
  let method := req_method req in
  let url := req_url req in
  let location := get "location" (req_headers req) in
  let requestId := VNum now in
  console_log ("Incoming " ++ tmpl method ++ " request (" ++ tmpl requestId
               ++ "): " ++ tmpl url)%string ;;
  console_log ("Location: " ++ tmpl location)%string ;;
  add_nowait MainQ
    [("method", method); ("url", url); ("location", location);
     ("requestId", requestId)] ;;
  queueLogs_push
    (mkLog "mainQueue"
       [("method", method); ("url", url); ("location", location);
        ("requestId", requestId)]) ;;
  respond 202 [("message", VStr "Request queued for processing")].

(** [app.use(validateRequest, manageQueues)]. *)
Definition app (now : Z) (req : Request) : M unit :=
  validateRequest req (manageQueues now req).

(** ** The dispatcher: [mainQueue.process] *)

Definition mainQueue_process (o : Settle) (job : object) : M unit :=
  let method := get "method" job in
  let url := get "url" job in
  let location := get "location" job in
  let requestId := get "requestId" job in
  try_catch_finally
    (if is_str location "USA" then
       await_add UsaQ
         [("method", method); ("url", url); ("requestId", requestId)] o ;;
       queueLogs_push
         (mkLog "usaQueue"
            [("method", method); ("url", url); ("location", location);
             ("requestId", requestId)])
     else if is_str location "Europe" then
       await_add EuropeQ
         [("method", method); ("url", url); ("requestId", requestId)] o ;;
       queueLogs_push
         (mkLog "europeQueue"
            [("method", method); ("url", url); ("location", location);
             ("requestId", requestId)])
     else if is_str location "India" then
       await_add IndiaQ
         [("method", method); ("url", url); ("requestId", requestId)] o ;;
       queueLogs_push
         (mkLog "indiaQueue"
            [("method", method); ("url", url); ("location", location);
             ("requestId", requestId)])
     else
       console_error ("Invalid location: " ++ tmpl location)%string)
    (fun error =>
       console_error_with
         ("Error processing job " ++ tmpl requestId ++ ":")%string error)
    (done MainQ).

(** ** The regional workers *)

Inductive Region : Type :=
| USA
| Europe
| India.

Definition queue_of (r : Region) : QueueId :=
  match r with
  | USA => UsaQ
  | Europe => EuropeQ
  | India => IndiaQ
  end.

(** The three handlers have the same text; [q] is the queue whose [done]
    they call.  [rnd1] and [rnd2] are the two values [Math.random()]
    returns, in the worker and in the endpoint it picks. *)
Definition regional_process (q : QueueId) (rnd1 rnd2 : Q) (job : object)
  : M unit :=
  let method := get "method" job in
  let url := get "url" job in
  let requestId := get "requestId" job in
  try_catch_finally
    (match
        index mockRESTAPIs
          (Qfloor (rnd1 * inject_Z (Z.of_nat (List.length mockRESTAPIs))))
      with
      | None =>
          throw (TypeError
            "Cannot read properties of undefined (reading 'handleRequest')")
      | Some randomAPI =>
          emit (EvHandle q (endpoint randomAPI)
                  [("method", method); ("url", url)]) ;;
          handleRequest randomAPI rnd2
            [("method", method); ("url", url)] [("json", VFun FNoop)]
      end)
    (fun error =>
       console_error_with
         ("Error processing job " ++ tmpl requestId ++ ":")%string error)
    (done q).

Definition usaQueue_process : Q -> Q -> object -> M unit :=
  regional_process UsaQ.
Definition europeQueue_process : Q -> Q -> object -> M unit :=
  regional_process EuropeQ.
Definition indiaQueue_process : Q -> Q -> object -> M unit :=
  regional_process IndiaQ.

(** ** The reporter: the [setInterval] callback *)

Definition reporter_period : Z := 10000.

Definition log_line (log : LogEntry) : string :=
  (queue log ++ " queue: " ++ tmpl (get "method" (request log)) ++ " "
   ++ tmpl (get "url" (request log)) ++ " ("
   ++ tmpl (get "location" (request log)) ++ ") ["
   ++ tmpl (get "requestId" (request log)) ++ "]")%string.

Definition reporter : M unit :=
  console_log "Queue performance analysis:" ;;
  mainQueueSize <- read (fun w => size (mainQueue w)) ;;
  usaQueueSize <- read (fun w => size (usaQueue w)) ;;
  europeQueueSize <- read (fun w => size (europeQueue w)) ;;
  indiaQueueSize <- read (fun w => size (indiaQueue w)) ;;
  console_log ("Main queue size: " ++ string_of_nat mainQueueSize)%string ;;
  console_log ("USA queue size: " ++ string_of_nat usaQueueSize)%string ;;
  (* europeQueueSize && console.log(...) *)
  (if Nat.eqb europeQueueSize 0 then ret tt
   else
     console_log
       ("Europe queue size: " ++ string_of_nat europeQueueSize)%string) ;;
  console_log ("India queue size: " ++ string_of_nat indiaQueueSize)%string ;;
  console_log "Queue logs:" ;;
  logs <- read queueLogs ;;
  for_each (fun log => console_log (log_line log)) logs.

(** ** Shutdown *)

Definition queues : list QueueId := [MainQ; UsaQ; EuropeQ; IndiaQ].

(** [gracefulShutdown()]: every [waitForQueueDrain(queue)] runs up to its
    [await queue.drain()]; the new entry of [shutdowns] is the [Promise.all]
    over the four promises, none of them resolved yet. *)
Definition gracefulShutdown : M unit :=
  console_log "Gracefully shutting down the server..." ;;
  for_each (fun q => emit (EvDrain q)) queues ;;
  modify (fun w => set_shutdowns (shutdowns w ++ [[]]) w).

Fixpoint replace_nth {A : Type} (n : nat) (x : A) (l : list A) : list A :=
  match l, n with
  | [], _ => []
  | _ :: l', O => x :: l'
  | y :: l', S n' => y :: replace_nth n' x l'
  end.

Fixpoint remove_nth {A : Type} (n : nat) (l : list A) : list A :=
  match l, n with
  | [], _ => []
  | _ :: l', O => l'
  | y :: l', S n' => y :: remove_nth n' l'
  end.

Definition all_in (resolved : list QueueId) : bool :=
  forallb (fun q => existsb (QueueId_eqb q) resolved) queues.

(** The [drain()] promise of queue [q] in the [k]-th shutdown settles:
    the rest of [waitForQueueDrain], then the [then] or the [catch] of the
    [Promise.all]. *)
Definition drain_settles (k : nat) (q : QueueId) (o : Settle) : M unit :=
  sd <- read shutdowns ;;
  match nth_error sd k with
  | None => ret tt
  | Some resolved =>
      if existsb (QueueId_eqb q) resolved then ret tt
      else
        match o with
        | Resolved =>
            nm <- read (fun w => name (getQ q w)) ;;
            console_log (nm ++ " queue drained")%string ;;
            modify (set_shutdowns (replace_nth k (resolved ++ [q]) sd)) ;;
            if all_in (resolved ++ [q]) then
              console_log "All queues drained. Shutting down..." ;;
              exit 0
            else ret tt
        | Rejected error =>
            console_error_with "Error during graceful shutdown:" error ;;
            exit 1
        end
  end.

(** ** The event loop *)

(** What can happen next: a request arrives, a pending add of the intake
    settles, a queue hands its head job to its handler, a pending timer
    fires, the reporter's interval elapses, a signal arrives, a drain
    promise of a shutdown settles.  Each constructor carries what the
    environment decides.  Time is not measured: any pending timer may be
    the next to fire. *)
Inductive Action : Type :=
| HttpRequest (req : Request) (now : Z)
| AddSettles (i : nat) (o : Settle)
| MainJob (o : Settle)
| RegionalJob (r : Region) (rnd1 rnd2 : Q)
| TimerFires (i : nat)
| ReporterTick
| SignalArrives (s : Signal)
| DrainSettles (k : nat) (q : QueueId) (o : Settle).

Definition exec (m : M unit) (w : World) : World := snd (m w).

(** An error thrown by a timer callback reaches the event loop; the
    program installs no [uncaughtException] handler, so the process ends
    there. *)
Definition uncaught (e : error) (w : World) : World :=
  set_proc (Crashed e) (set_trace (trace w ++ [EvUncaught e]) w).

(** A pending [mainQueue.add] of the intake settles.  Nothing was chained
    to that promise: a rejection is only recorded. *)
Definition add_settles (i : nat) (o : Settle) (w : World) : World :=
  match nth_error (pendingAdds w) i with
  | None => w
  | Some (q, payload) =>
      let w1 :=
        exec (emit (EvAddSettled q payload o))
          (set_pendingAdds (remove_nth i (pendingAdds w)) w) in
      match o with
      | Resolved => setQ q (enqueue payload (getQ q w1)) w1
      | Rejected _ => w1
      end
  end.

(** Modelled from the spec: [process] of the job queue, which is absent
    from the sources, drives the registered handler against the jobs "in
    FIFO order, one at a time": the handler gets the head of the queue. *)
Definition main_job (o : Settle) (w : World) : World :=
  match jobs (mainQueue w) with
  | [] => w
  | job :: _ => exec (mainQueue_process o job) w
  end.

Definition regional_job (r : Region) (rnd1 rnd2 : Q) (w : World) : World :=
  match jobs (getQ (queue_of r) w) with
  | [] => w
  | job :: _ =>
      match r with
      | USA => exec (usaQueue_process rnd1 rnd2 job) w
      | Europe => exec (europeQueue_process rnd1 rnd2 job) w
      | India => exec (indiaQueue_process rnd1 rnd2 job) w
      end
  end.

Definition timer_fires (i : nat) (w : World) : World :=
  match nth_error (timers w) i with
  | None => w
  | Some t =>
      let w1 := set_timers (remove_nth i (timers w)) w in
      match run_callback t w1 with
      | (Ok _, w2) => w2
      | (Throw e, w2) => uncaught e w2
      end
  end.

Definition step (a : Action) (w : World) : World :=
  match proc w with
  | Running =>
      match a with
      | HttpRequest req now => exec (app now req) w
      | AddSettles i o => add_settles i o w
      | MainJob o => main_job o w
      | RegionalJob r rnd1 rnd2 => regional_job r rnd1 rnd2 w
      | TimerFires i => timer_fires i w
      | ReporterTick => exec reporter w
      | SignalArrives _ => exec gracefulShutdown w
      | DrainSettles k q o => exec (drain_settles k q o) w
      end
  | _ => w
  end.

Definition run (acts : list Action) (w : World) : World :=
  fold_left (fun w a => step a w) acts w.

(** What a step adds to the trace. *)
Definition emitted (w w' : World) : list Event :=
  skipn (List.length (trace w)) (trace w').

(** [Math.random()] returns a number in [0, 1). *)
Definition random (r : Q) : Prop := (0 <= r)%Q /\ (r < 1)%Q.

(** ** Counting events *)

Definition is_add (e : Event) : bool :=
  match e with EvAdd _ _ => true | _ => false end.

Definition is_done (e : Event) : bool :=
  match e with EvDone _ => true | _ => false end.

Definition is_console_error (e : Event) : bool :=
  match e with EvError _ | EvErrorWith _ _ => true | _ => false end.

Definition count (p : Event -> bool) (l : list Event) : nat :=
  List.length (filter p l).

(** ** Names used in the statements *)

(** The job type the dispatcher writes to a regional queue. *)
Definition stripped (job : object) : object :=
  [("method", get "method" job); ("url", get "url" job);
   ("requestId", get "requestId" job)].

(** The request a trace log entry of the dispatcher holds. *)
Definition traced (job : object) : object :=
  [("method", get "method" job); ("url", get "url" job);
   ("location", get "location" job); ("requestId", get "requestId" job)].

Definition tag (r : Region) : string :=
  match r with
  | USA => "USA"
  | Europe => "Europe"
  | India => "India"
  end.

Definition routable (location : value) : bool :=
  is_str location "USA" || is_str location "Europe" || is_str location "India".

Definition queue_name (r : Region) : string :=
  match r with
  | USA => "usaQueue"
  | Europe => "europeQueue"
  | India => "indiaQueue"
  end.

Definition is_respond (e : Event) : bool :=
  match e with EvRespond _ _ => true | _ => false end.

(** A field of the request is missing: absent or empty. *)
Definition absent (v : value) : Prop := v = VUndefined \/ v = VStr "".

Definition missing_field (req : Request) : Prop :=
  absent (req_method req) \/ absent (req_url req) \/
  absent (get "location" (req_headers req)).

(** A request of the HTTP server: its fields are strings or absent. *)
Definition textual (v : value) : Prop :=
  v = VUndefined \/ exists s, v = VStr s.

Definition http_request (req : Request) : Prop :=
  textual (req_method req) /\ textual (req_url req) /\
  textual (get "location" (req_headers req)).

(** The job data the intake hands to the main queue. *)
Definition intake_payload (now : Z) (req : Request) : object :=
  [("method", req_method req); ("url", req_url req);
   ("location", get "location" (req_headers req)); ("requestId", VNum now)].

(** What the intake leaves behind for a request it accepts. *)
Definition queued (now : Z) (req : Request) (w : World) : World :=
  set_trace
    (trace w ++
     [EvLog ("Incoming " ++ tmpl (req_method req) ++ " request ("
             ++ tmpl (VNum now) ++ "): " ++ tmpl (req_url req))%string;
      EvLog ("Location: " ++ tmpl (get "location" (req_headers req)))%string;
      EvAdd MainQ (intake_payload now req);
      EvRespond 202 [("message", VStr "Request queued for processing")]])
    (set_queueLogs (queueLogs w ++ [mkLog "mainQueue" (intake_payload now req)])
       (set_pendingAdds (pendingAdds w ++ [(MainQ, intake_payload now req)]) w)).

(** What [gracefulShutdown] leaves behind. *)
Definition draining (w : World) : World :=
  set_shutdowns (shutdowns w ++ [[]])
    (set_trace
       (trace w ++
        [EvLog "Gracefully shutting down the server..."; EvDrain MainQ;
         EvDrain UsaQ; EvDrain EuropeQ; EvDrain IndiaQ])
       w).

(** The request a worker hands to the mock endpoint for a job. *)
Definition backend_req (job : object) : object :=
  [("method", get "method" job); ("url", get "url" job)].

(** The jobs whose [add] to queue [q] resolved, in that order. *)
Definition enqueued_by (q : QueueId) (e : Event) : list object :=
  match e with
  | EvAddSettled q' payload Resolved =>
      if QueueId_eqb q q' then [payload] else []
  | _ => []
  end.

Definition enqueued (q : QueueId) (l : list Event) : list object :=
  flat_map (enqueued_by q) l.

(** The requests the worker of queue [q] handed to the backend, in order. *)
Definition called_by (q : QueueId) (e : Event) : list object :=
  match e with
  | EvHandle q' _ req => if QueueId_eqb q q' then [req] else []
  | _ => []
  end.

Definition calls (q : QueueId) (l : list Event) : list object :=
  flat_map (called_by q) l.

(** The random draws an action carries are values of [Math.random()]. *)
Definition well_drawn (a : Action) : Prop :=
  match a with
  | RegionalJob _ rnd1 rnd2 => random rnd1 /\ random rnd2
  | _ => True
  end.

(** What one step does to a regional queue: nothing, one job more at the
    tail, or the head handed to the backend and removed. *)
Inductive QueueMove (q : QueueId) (w w' : World) : Prop :=
| move_none (l : list Event) :
    trace w' = trace w ++ l ->
    jobs (getQ q w') = jobs (getQ q w) ->
    enqueued q l = [] -> calls q l = [] ->
    QueueMove q w w'
| move_enqueue (l : list Event) (payload : object) :
    trace w' = trace w ++ l ->
    jobs (getQ q w') = jobs (getQ q w) ++ [payload] ->
    enqueued q l = [payload] -> calls q l = [] ->
    QueueMove q w w'
| move_serve (l : list Event) (job : object) :
    trace w' = trace w ++ l ->
    jobs (getQ q w) = job :: jobs (getQ q w') ->
    enqueued q l = [] -> calls q l = [backend_req job] ->
    QueueMove q w w'.

(** The jobs of queue [q] whose add resolved are those already handed to
    the backend, in that order, followed by those still in the queue. *)
Definition served_in_order (q : QueueId) (w : World) : Prop :=
  exists served,
    enqueued q (trace w) = served ++ jobs (getQ q w) /\
    calls q (trace w) = map backend_req served.

(** What one step does to the pending shutdowns and to the process: the
    step leaves them alone and calls no [process.exit]; a signal starts a
    shutdown; a drain of a shutdown resolves, the last one with the exit;
    a drain rejects. *)
Inductive ShutdownMove (w w' : World) : Prop :=
| shutdown_kept (l : list Event) :
    trace w' = trace w ++ l ->
    shutdowns w' = shutdowns w ->
    (forall code, proc w' <> Exited code) ->
    ShutdownMove w w'
| shutdown_started :
    trace w' =
      trace w ++
      [EvLog "Gracefully shutting down the server..."; EvDrain MainQ;
       EvDrain UsaQ; EvDrain EuropeQ; EvDrain IndiaQ] ->
    shutdowns w' = shutdowns w ++ [[]] ->
    proc w' = Running ->
    ShutdownMove w w'
| drain_resolved (k : nat) (q : QueueId) (resolved : list QueueId) :
    nth_error (shutdowns w) k = Some resolved ->
    shutdowns w' = replace_nth k (resolved ++ [q]) (shutdowns w) ->
    (all_in (resolved ++ [q]) = true ->
     proc w' = Exited 0 /\
     trace w' =
       trace w ++
       [EvLog (name (getQ q w) ++ " queue drained")%string;
        EvLog "All queues drained. Shutting down..."; EvExit 0]) ->
    (all_in (resolved ++ [q]) = false ->
     proc w' = Running /\
     trace w' =
       trace w ++ [EvLog (name (getQ q w) ++ " queue drained")%string]) ->
    ShutdownMove w w'
| drain_rejected (k : nat) (resolved : list QueueId) (e : error) :
    nth_error (shutdowns w) k = Some resolved ->
    trace w' =
      trace w ++ [EvErrorWith "Error during graceful shutdown:" e; EvExit 1] ->
    shutdowns w' = shutdowns w ->
    proc w' = Exited 1 ->
    ShutdownMove w w'.

Definition names_kept (w w' : World) : Prop :=
  forall q, name (getQ q w') = name (getQ q w).

(** The line [waitForQueueDrain] writes once the drain of [q] resolved. *)
Definition drained_line (q : QueueId) : Event :=
  EvLog (name (getQ q init) ++ " queue drained")%string.

(** The invariant of a run from the start.  The queues keep their names; a
    pending shutdown was started by a call of [drain] on each queue, and
    each queue it records as drained has its line in the trace; an exit
    through [process.exit] is the last event, after the four drain calls
    and either the four lines (code 0) or the logged cause (code 1). *)
Record ShutdownInv (w : World) : Prop := mkInv {
  inv_names : forall q, name (getQ q w) = name (getQ q init);
  inv_invoked :
    shutdowns w <> [] -> forall q, In (EvDrain q) (trace w);
  inv_logged :
    forall k resolved q,
      nth_error (shutdowns w) k = Some resolved ->
      In q resolved ->
      In (drained_line q) (trace w);
  inv_exit :
    forall code,
      proc w = Exited code ->
      exists before,
        trace w = before ++ [EvExit code] /\
        (forall q, In (EvDrain q) before) /\
        ((code = 0 /\ forall q, In (drained_line q) before) \/
         (code = 1 /\
          exists e, In (EvErrorWith "Error during graceful shutdown:" e) before))
}.

(** The state once the pending add of an accepted request has resolved. *)
Definition queued_in_main (now : Z) (req : Request) (w : World) : World :=
  setQ MainQ (enqueue (intake_payload now req) (mainQueue w))
    (set_trace
       (trace (queued now req w) ++
        [EvAddSettled MainQ (intake_payload now req) Resolved])
       (set_pendingAdds (pendingAdds w) (queued now req w))).

(** The state once the dispatcher has routed the head of the main queue to
    region [r] and the add has resolved. *)
Definition routed (r : Region) (job : object) (w : World) : World :=
  exec (done MainQ)
    (set_queueLogs (queueLogs w ++ [mkLog (queue_name r) (traced job)])
       (setQ (queue_of r) (enqueue (stripped job) (getQ (queue_of r) w))
          (set_trace
             (trace w ++
              [EvAdd (queue_of r) (stripped job);
               EvAddSettled (queue_of r) (stripped job) Resolved])
             w))).

(** Events that tell nothing about a queue, a timer or an uncaught
    error: console lines, responses, drain calls and exits. *)
Definition quiet (e : Event) : Prop :=
  match e with
  | EvLog _ | EvError _ | EvErrorWith _ _ | EvRespond _ _ | EvDrain _
  | EvExit _ => True
  | _ => False
  end.

(** The stub response object every worker hands to the endpoint. *)
Definition stub_res : object := [("json", VFun FNoop)].

(** What one step of a running process does, as an equation on the state:
    only console lines, drain calls or an exit; a request accepted; a
    pending add settled; the head of the main queue routed, its add
    rejected, or dropped as unroutable; the head of a regional queue
    handed to an endpoint, or the lookup of the endpoint failed; a timer
    fired, its callback throwing or answering. *)
Inductive StepShape (a : Action) (w w' : World) : Prop :=
| shape_quiet (l : list Event) (sd : list (list QueueId)) (p : Proc) :
    Forall quiet l ->
    p = proc w \/ (exists code, p = Exited code) ->
    w' = set_proc p (set_shutdowns sd (set_trace (trace w ++ l) w)) ->
    StepShape a w w'
| shape_queued (req : Request) (now : Z) :
    falsy (req_method req) = false ->
    falsy (req_url req) = false ->
    falsy (get "location" (req_headers req)) = false ->
    w' = queued now req w ->
    StepShape a w w'
| shape_add_resolved (i : nat) (q : QueueId) (payload : object) :
    nth_error (pendingAdds w) i = Some (q, payload) ->
    w' =
      setQ q (enqueue payload (getQ q w))
        (set_trace (trace w ++ [EvAddSettled q payload Resolved])
           (set_pendingAdds (remove_nth i (pendingAdds w)) w)) ->
    StepShape a w w'
| shape_add_rejected (i : nat) (q : QueueId) (payload : object) (e : error) :
    nth_error (pendingAdds w) i = Some (q, payload) ->
    w' =
      set_trace (trace w ++ [EvAddSettled q payload (Rejected e)])
        (set_pendingAdds (remove_nth i (pendingAdds w)) w) ->
    StepShape a w w'
| shape_routed (r : Region) (job : object) (rest : list object) :
    jobs (mainQueue w) = job :: rest ->
    get "location" job = VStr (tag r) ->
    w' = routed r job w ->
    StepShape a w w'
| shape_route_failed (r : Region) (job : object) (rest : list object)
    (e : error) :
    jobs (mainQueue w) = job :: rest ->
    get "location" job = VStr (tag r) ->
    w' =
      exec (done MainQ)
        (set_trace
           (trace w ++
            [EvAdd (queue_of r) (stripped job);
             EvAddSettled (queue_of r) (stripped job) (Rejected e);
             EvErrorWith
               ("Error processing job " ++ tmpl (get "requestId" job) ++ ":")%string
               e])
           w) ->
    StepShape a w w'
| shape_unroutable (job : object) (rest : list object) :
    jobs (mainQueue w) = job :: rest ->
    routable (get "location" job) = false ->
    w' =
      exec (done MainQ)
        (set_trace
           (trace w ++
            [EvError ("Invalid location: " ++ tmpl (get "location" job))%string])
           w) ->
    StepShape a w w'
| shape_worked (r : Region) (job : object) (rest : list object)
    (ep : string) (t : Timer) :
    jobs (getQ (queue_of r) w) = job :: rest ->
    cb_res t = stub_res ->
    w' =
      exec (done (queue_of r))
        (set_timers (timers w ++ [t])
           (set_trace
              (trace w ++ [EvHandle (queue_of r) ep (backend_req job)]) w)) ->
    StepShape a w w'
| shape_work_failed (r : Region) (job : object) (rest : list object)
    (e : error) :
    jobs (getQ (queue_of r) w) = job :: rest ->
    w' =
      exec (done (queue_of r))
        (set_trace
           (trace w ++
            [EvErrorWith
               ("Error processing job " ++ tmpl (get "requestId" job) ++ ":")%string
               e])
           w) ->
    StepShape a w w'
| shape_timer_crashed (i : nat) (t : Timer) (e : error) :
    a = TimerFires i ->
    nth_error (timers w) i = Some t ->
    w' = uncaught e (set_timers (remove_nth i (timers w)) w) ->
    StepShape a w w'
| shape_timer_answered (i : nat) (t : Timer) :
    nth_error (timers w) i = Some t ->
    cb_res t <> stub_res ->
    w' =
      set_trace (trace w ++ [EvRespond (cb_status t) (cb_body t)])
        (set_timers (remove_nth i (timers w)) w) ->
    StepShape a w w'.

(** A job as the intake builds it from a request that passed the
    validator. *)
Definition accepted_job (j : object) : Prop :=
  exists method url location now,
    j = [("method", method); ("url", url); ("location", location);
         ("requestId", VNum now)] /\
    falsy method = false /\ falsy url = false /\ falsy location = false.

(** A job as the dispatcher builds it for a regional queue. *)
Definition dispatched_job (j : object) : Prop :=
  exists method url now,
    j = [("method", method); ("url", url); ("requestId", VNum now)] /\
    falsy method = false /\ falsy url = false.

(** What the queues and the timers of a run from the start hold. *)
Record PipelineInv (w : World) : Prop := mkPipe {
  pipe_pending :
    Forall (fun p => fst p = MainQ /\ accepted_job (snd p)) (pendingAdds w);
  pipe_main : Forall accepted_job (jobs (mainQueue w));
  pipe_regions :
    forall r, Forall dispatched_job (jobs (getQ (queue_of r) w));
  pipe_timers : Forall (fun t => cb_res t = stub_res) (timers w)
}.

(** The trace log entries that name queue [nm]. *)
Definition named (nm : string) (e : LogEntry) : bool :=
  String.eqb (queue e) nm.

(** The payloads of the calls of [add] on queue [q], in order. *)
Definition added_by (q : QueueId) (e : Event) : list object :=
  match e with
  | EvAdd q' payload => if QueueId_eqb q q' then [payload] else []
  | _ => []
  end.

Definition added (q : QueueId) (l : list Event) : list object :=
  flat_map (added_by q) l.

(** How the trace log of a run from the start relates to what happened:
    its main-queue entries are the payloads the intake called [add] with,
    and its entries for a region are, without their location, the jobs
    whose add to that region's queue resolved, each with the location that
    names the region. *)
Record LogInv (w : World) : Prop := mkLogInv {
  log_main :
    map request (filter (named "mainQueue") (queueLogs w)) =
    added MainQ (trace w);
  log_region :
    forall r,
      map (fun e => stripped (request e))
        (filter (named (queue_name r)) (queueLogs w)) =
      enqueued (queue_of r) (trace w);
  log_tag :
    forall r,
      Forall (fun e => get "location" (request e) = VStr (tag r))
        (filter (named (queue_name r)) (queueLogs w));
  log_names :
    Forall
      (fun e => queue e = "mainQueue" \/ exists r, queue e = queue_name r)
      (queueLogs w)
}.




Definition is_drain (e : Event) : bool :=
  match e with EvDrain _ => true | _ => false end.

(** ** Sample states *)

Definition job_for (location : string) (id : Z) : object :=
  [("method", VStr "GET"); ("url", VStr "/api/v1/resource");
   ("location", VStr location); ("requestId", VNum id)].

Definition with_main (js : list object) : World :=
  setQ MainQ (mkQueue "mainQueue" js) init.

Definition with_region (r : Region) (js : list object) : World :=
  setQ (queue_of r) (mkQueue (queue_name r) js) init.

Definition request_from (location : string) (path : string) : Request :=
  mkReq (VStr "POST") (VStr path) [("location", VStr location)].

Definition store_down : error := StoreError "connection closed".

(** ** Basic facts *)

Lemma emitted_app (w w' : World) (l : list Event) :
  trace w' = trace w ++ l -> emitted w w' = l.
Proof.
  intros H. unfold emitted. rewrite H.
  rewrite skipn_app, skipn_all, Nat.sub_diag. reflexivity.
Qed.

Lemma step_not_running (a : Action) (w : World) :
  proc w <> Running -> step a w = w.
Proof.
  unfold step. destruct (proc w); congruence.
Qed.

Lemma run_not_running (acts : list Action) (w : World) :
  proc w <> Running -> run acts w = w.
Proof.
  revert w. induction acts as [| a acts IH]; intros w H; [reflexivity |].
  cbn. rewrite (step_not_running a w H). now apply IH.
Qed.

Lemma run_app (l1 l2 : list Action) (w : World) :
  run (l1 ++ l2) w = run l2 (run l1 w).
Proof. unfold run. apply fold_left_app. Qed.

(** Unfolds a handler run at a state given by its fields. *)
Ltac run_handler :=
  cbv [exec bind ret throw try_catch_finally emit console_log console_error
       console_error_with read modify queueLogs_push await_add add_nowait
       done respond setTimeout exit fst snd].

Ltac world_simpl :=
  cbn [mainQueue usaQueue europeQueue indiaQueue queueLogs pendingAdds timers
       shutdowns trace proc getQ setQ set_queueLogs set_pendingAdds
       set_timers set_shutdowns set_trace set_proc name jobs enqueue
       complete tl queue_of] in *.

(** ** The dispatcher *)

Lemma mainQueue_process_never_throws (o : Settle) (job : object) (w : World) :
  fst (mainQueue_process o job w) = Ok tt.
Proof.
  unfold mainQueue_process.
  destruct (is_str (get "location" job) "USA");
    [| destruct (is_str (get "location" job) "Europe");
       [| destruct (is_str (get "location" job) "India")]];
    destruct o; reflexivity.
Qed.

Lemma tag_routes (r : Region) (location : value) :
  location = VStr (tag r) ->
  is_str location "USA" = (match r with USA => true | _ => false end) /\
  is_str location "Europe" = (match r with Europe => true | _ => false end) /\
  is_str location "India" = (match r with India => true | _ => false end).
Proof. intros ->. destruct r; repeat split; reflexivity. Qed.

(** C1 (as amended).  For a job at the head of the main queue whose
    location is USA, Europe or India, the dispatcher calls [add] exactly
    once, on the regional queue of that location and with the job without
    its [location] property, leaves the other two regional queues as they
    were and marks the main-queue job done once.  When that [add] resolves,
    the regional queue has the stripped job at its tail and exactly one
    trace log entry naming that queue is appended; when it rejects, the
    regional queue and the trace log are unchanged and the error is logged
    with the job's request id. *)
Theorem dispatch_routes_to_one_region
    (r : Region) (o : Settle) (w : World) (job : object) (rest : list object) :
  proc w = Running ->
  jobs (mainQueue w) = job :: rest ->
  get "location" job = VStr (tag r) ->
  let w' := step (MainJob o) w in
  filter is_add (emitted w w') = [EvAdd (queue_of r) (stripped job)] /\
  has "location" (stripped job) = false /\
  (forall r', r' <> r -> getQ (queue_of r') w' = getQ (queue_of r') w) /\
  count is_done (emitted w w') = 1%nat /\
  jobs (mainQueue w') = rest /\
  match o with
  | Resolved =>
      jobs (getQ (queue_of r) w') = jobs (getQ (queue_of r) w) ++ [stripped job] /\
      queueLogs w' = queueLogs w ++ [mkLog (queue_name r) (traced job)] /\
      count is_console_error (emitted w w') = 0%nat
  | Rejected e =>
      getQ (queue_of r) w' = getQ (queue_of r) w /\
      queueLogs w' = queueLogs w /\
      In (EvErrorWith
            ("Error processing job " ++ tmpl (get "requestId" job) ++ ":")%string
            e)
         (emitted w w')
  end.
Proof.
  intros Hrun Hjobs Hloc w'. subst w'.
  unfold step, main_job. rewrite Hrun, Hjobs.
  destruct (tag_routes r _ Hloc) as (Hu & He & Hi).
  unfold mainQueue_process. rewrite Hu, He, Hi.
  destruct w as [mq uq eq iq logs pa tm sd tr pr]. world_simpl. subst.
  destruct r, o; run_handler; world_simpl.
  all: unfold emitted; world_simpl.
  all: rewrite <- ?app_assoc; rewrite skipn_app, skipn_all, Nat.sub_diag.
  all: cbn.
  all: repeat split; auto.
  all: try (intros r' Hr'; destruct r'; try reflexivity; congruence).
  all: try (destruct mq; simpl in *; subst; reflexivity).
Qed.

Lemma dispatch_routes_to_one_region_witness :
  let job := job_for "USA" 17 in
  let w := with_main [job] in
  let w' := step (MainJob Resolved) w in
  (proc w = Running /\ jobs (mainQueue w) = [job] /\
   get "location" job = VStr (tag USA)) /\
  filter is_add (emitted w w') = [EvAdd UsaQ (stripped job)] /\
  jobs (usaQueue w') = [stripped job] /\
  queueLogs w' = [mkLog "usaQueue" (traced job)].
Proof.
  intros job w w'.
  destruct (dispatch_routes_to_one_region USA Resolved w job []
              eq_refl eq_refl eq_refl)
    as (Hadd & _ & _ & _ & _ & Hq & Hlog & _).
  split; [repeat split; reflexivity |].
  split; [exact Hadd |]. split; [exact Hq | exact Hlog].
Defined.

(** C1 as stated fails when the regional [add] rejects: the dispatcher
    has called [add] on the USA queue, yet no job arrives there and no
    trace log entry is appended. *)
Lemma dispatch_rejected_add_leaves_no_trace_entry :
  let job := job_for "USA" 17 in
  let w := with_main [job] in
  let w' := step (MainJob (Rejected store_down)) w in
  get "location" job = VStr "USA" /\
  filter is_add (emitted w w') = [EvAdd UsaQ (stripped job)] /\
  size (usaQueue w') = size (usaQueue w) /\
  ~ (exists entry, queueLogs w' = queueLogs w ++ [entry]) /\
  proc w' = Running.
Proof.
  repeat split. intros [entry H]. discriminate H.
Qed.

(** C2.  For a job at the head of the main queue whose location is none
    of USA, Europe and India, the dispatcher emits exactly the line
    [Invalid location: <location>] on the error console and then calls
    [done]: no [add] is made, the three regional queues, the trace log and
    the pending adds are unchanged, and the job has left the main queue,
    whatever the store would have answered. *)
Theorem dispatch_drops_unroutable
    (o : Settle) (w : World) (job : object) (rest : list object) :
  proc w = Running ->
  jobs (mainQueue w) = job :: rest ->
  routable (get "location" job) = false ->
  let w' := step (MainJob o) w in
  emitted w w' =
    [EvError ("Invalid location: " ++ tmpl (get "location" job))%string;
     EvDone MainQ] /\
  count is_add (emitted w w') = 0%nat /\
  count is_console_error (emitted w w') = 1%nat /\
  count is_done (emitted w w') = 1%nat /\
  usaQueue w' = usaQueue w /\
  europeQueue w' = europeQueue w /\
  indiaQueue w' = indiaQueue w /\
  queueLogs w' = queueLogs w /\
  pendingAdds w' = pendingAdds w /\
  jobs (mainQueue w') = rest /\
  proc w' = Running.
Proof.
  intros Hrun Hjobs Hroute w'. subst w'.
  unfold routable in Hroute.
  apply orb_false_elim in Hroute as [Hroute Hi].
  apply orb_false_elim in Hroute as [Hu He].
  unfold step, main_job. rewrite Hrun, Hjobs.
  unfold mainQueue_process. rewrite Hu, He, Hi.
  destruct w as [mq uq eq iq logs pa tm sd tr pr]. world_simpl. subst.
  run_handler; world_simpl.
  assert (Hem : forall w1 w2 l, trace w2 = trace w1 ++ l -> emitted w1 w2 = l)
    by apply emitted_app.
  rewrite (Hem _ _ [EvError ("Invalid location: " ++ tmpl (get "location" job))%string;
                    EvDone MainQ]).
  - repeat split. now rewrite Hjobs.
  - world_simpl. now rewrite <- app_assoc.
Qed.

Lemma dispatch_drops_unroutable_witness :
  let job := job_for "Mars" 18 in
  let w := with_main [job; job_for "USA" 19] in
  let w' := step (MainJob Resolved) w in
  (proc w = Running /\ jobs (mainQueue w) = [job; job_for "USA" 19] /\
   routable (get "location" job) = false) /\
  emitted w w' = [EvError "Invalid location: Mars"; EvDone MainQ] /\
  jobs (mainQueue w') = [job_for "USA" 19].
Proof.
  intros job w w'.
  destruct (dispatch_drops_unroutable Resolved w job [job_for "USA" 19]
              eq_refl eq_refl eq_refl)
    as (Hem & _ & _ & _ & _ & _ & _ & _ & _ & Hrest & _).
  split; [repeat split; reflexivity |].
  split; [exact Hem | exact Hrest].
Defined.

(** ** Intake *)

Lemma falsy_absent (v : value) : textual v -> (falsy v = true <-> absent v).
Proof.
  intros [-> | [s ->]]; unfold absent; cbn.
  - split; auto.
  - split.
    + intros H. apply String.eqb_eq in H. subst. auto.
    + intros [H | H]; [discriminate | injection H as ->; reflexivity].
Qed.

Lemma validate_rejects_iff_missing (req : Request) :
  http_request req ->
  (falsy (req_method req) || falsy (req_url req)
   || falsy (get "location" (req_headers req)) = true) <-> missing_field req.
Proof.
  intros (Hm & Hu & Hl). unfold missing_field.
  rewrite !orb_true_iff.
  rewrite (falsy_absent _ Hm), (falsy_absent _ Hu), (falsy_absent _ Hl).
  tauto.
Qed.

Lemma nth_error_snoc {A : Type} (l : list A) (x : A) :
  nth_error (l ++ [x]) (List.length l) = Some x.
Proof.
  rewrite nth_error_app2 by lia. now rewrite Nat.sub_diag.
Qed.

Lemma remove_nth_snoc {A : Type} (l : list A) (x : A) :
  remove_nth (List.length l) (l ++ [x]) = l.
Proof.
  induction l as [| y l IH]; cbn; [reflexivity | now rewrite IH].
Qed.

Lemma app_rejects (now : Z) (req : Request) (w : World) :
  falsy (req_method req) || falsy (req_url req)
  || falsy (get "location" (req_headers req)) = true ->
  app now req w =
    (Ok tt,
     set_trace (trace w ++ [EvRespond 400 [("error", VStr "Invalid request")]])
       w).
Proof.
  intros H. unfold app, validateRequest. rewrite H. reflexivity.
Qed.

Lemma app_accepts (now : Z) (req : Request) (w : World) :
  falsy (req_method req) || falsy (req_url req)
  || falsy (get "location" (req_headers req)) = false ->
  app now req w = manageQueues now req w.
Proof.
  intros H. unfold app, validateRequest. rewrite H. reflexivity.
Qed.

(** C3.  For every request of the HTTP server handled while the process
    runs: when the method, the url or the [location] header is missing,
    the only thing that happens is the response 400 with body
    [{error: "Invalid request"}], and no queue, pending add or trace log
    changes; otherwise [add] is called once on the main queue, the response
    is 202 with body [{message: "Request queued for processing"}], and once
    that add resolves the main queue holds exactly one job more.  Exactly
    one response is produced, with status 400 or 202. *)
Theorem intake_rejects_or_queues (req : Request) (now : Z) (w : World) :
  proc w = Running ->
  http_request req ->
  let w' := step (HttpRequest req now) w in
  (missing_field req ->
   emitted w w' = [EvRespond 400 [("error", VStr "Invalid request")]] /\
   (forall q, getQ q w' = getQ q w) /\
   pendingAdds w' = pendingAdds w /\
   queueLogs w' = queueLogs w) /\
  (~ missing_field req ->
   filter is_respond (emitted w w') =
     [EvRespond 202 [("message", VStr "Request queued for processing")]] /\
   filter is_add (emitted w w') = [EvAdd MainQ (intake_payload now req)] /\
   pendingAdds w' = pendingAdds w ++ [(MainQ, intake_payload now req)] /\
   (forall q, getQ q w' = getQ q w) /\
   let w'' := step (AddSettles (List.length (pendingAdds w)) Resolved) w' in
   size (mainQueue w'') = S (size (mainQueue w)) /\
   jobs (mainQueue w'') = jobs (mainQueue w) ++ [intake_payload now req]) /\
  (exists status body,
     filter is_respond (emitted w w') = [EvRespond status body] /\
     (status = 400 \/ status = 202)).
Proof.
  intros Hrun Hreq w'. subst w'.
  pose proof (validate_rejects_iff_missing req Hreq) as Hiff.
  unfold step. rewrite Hrun. unfold exec.
  destruct (falsy (req_method req) || falsy (req_url req)
            || falsy (get "location" (req_headers req))) eqn:Hv.
  - rewrite (app_rejects now req w Hv). cbn [snd].
    assert (Hem : emitted w
              (set_trace
                 (trace w ++ [EvRespond 400 [("error", VStr "Invalid request")]])
                 w)
            = [EvRespond 400 [("error", VStr "Invalid request")]])
      by (apply emitted_app; reflexivity).
    rewrite Hem. split; [| split].
    + intros _. repeat split.
    + intros Hn. exfalso. apply Hn, Hiff. reflexivity.
    + eexists _, _. split; [reflexivity | now left].
  - rewrite (app_accepts now req w Hv).
    unfold manageQueues. run_handler.
    destruct w as [mq uq eq iq logs pa tm sd tr pr]. world_simpl. subst.
    unfold emitted; world_simpl.
    rewrite <- !app_assoc. rewrite skipn_app, skipn_all, Nat.sub_diag.
    cbn [skipn app filter is_respond is_add].
    split; [| split].
    + intros Hm. apply Hiff in Hm. discriminate.
    + intros _. repeat split.
      * unfold add_settles; world_simpl.
        rewrite nth_error_snoc, remove_nth_snoc. world_simpl.
        unfold size; cbn. rewrite length_app. cbn. lia.
      * unfold add_settles; world_simpl.
        rewrite nth_error_snoc, remove_nth_snoc. reflexivity.
    + eexists _, _. split; [reflexivity | now right].
Qed.

Lemma intake_rejects_or_queues_witness :
  let req := request_from "USA" "/orders" in
  let w' := step (HttpRequest req 1700000000000) init in
  (proc init = Running /\ http_request req /\ ~ missing_field req) /\
  filter is_respond (emitted init w') =
    [EvRespond 202 [("message", VStr "Request queued for processing")]] /\
  size (mainQueue (step (AddSettles 0 Resolved) w')) = 1%nat.
Proof.
  intros req w'.
  assert (Hreq : http_request req).
  { repeat split; right; eexists; reflexivity. }
  assert (Hmiss : ~ missing_field req).
  { intros [[H | H] | [[H | H] | [H | H]]]; discriminate H. }
  destruct (intake_rejects_or_queues req 1700000000000 init eq_refl Hreq)
    as (_ & Hok & _).
  destruct (Hok Hmiss) as (Hresp & _ & _ & _ & Hsize & _).
  split; [split; [reflexivity | split; assumption] |].
  split; [exact Hresp | exact Hsize].
Defined.

(** ** The regional workers and the mock backend *)

Lemma Qfloor_random (r : Q) (n : Z) :
  random r -> 0 < n -> 0 <= Qfloor (r * inject_Z n) < n.
Proof.
  intros [H0 H1] Hn. split.
  - change 0 with (Qfloor (inject_Z 0)) at 1. rewrite Qfloor_Z.
    change 0 with (Qfloor 0). apply Qfloor_resp_le.
    apply Qmult_le_0_compat; [exact H0 |].
    change 0%Q with (inject_Z 0). rewrite <- Zle_Qle. lia.
  - rewrite Zlt_Qlt.
    apply Qle_lt_trans with (r * inject_Z n)%Q; [apply Qfloor_le |].
    rewrite <- (Qmult_1_l (inject_Z n)) at 2.
    apply Qmult_lt_compat_r; [| exact H1].
    change 0%Q with (inject_Z 0). rewrite <- Zlt_Qlt. exact Hn.
Qed.

Section Draws.

Variables rnd1 rnd2 : Q.
Hypothesis Hrnd1 : random rnd1.
Hypothesis Hrnd2 : random rnd2.

Lemma regional_process_effects (q : QueueId) (job : object) (w : World) :
  exists api t,
    In api mockRESTAPIs /\
    cb_res t = [("json", VFun FNoop)] /\
    200 <= delay t < 2500 /\
    regional_process q rnd1 rnd2 job w =
      (Ok tt,
       exec (done q)
         (set_timers (timers w ++ [t])
            (set_trace
               (trace w ++
                [EvHandle q (endpoint api)
                   [("method", get "method" job); ("url", get "url" job)]])
               w))).
Proof.
  pose proof (Qfloor_random rnd1 2 Hrnd1 ltac:(lia)) as Hpick.
  pose proof (Qfloor_random rnd2 2000 Hrnd2 ltac:(lia)) as Hd1.
  pose proof (Qfloor_random rnd2 1000 Hrnd2 ltac:(lia)) as Hd2.
  unfold regional_process.
  change (Z.of_nat (List.length mockRESTAPIs)) with 2.
  assert (Hcase : Qfloor (rnd1 * inject_Z 2) = 0 \/ Qfloor (rnd1 * inject_Z 2) = 1)
    by lia.
  destruct Hcase as [-> | ->].
  - eexists (mkApi "/api/v1/resource" _), (mkTimer _ _ 200 _).
    split; [left; reflexivity |].
    split; [reflexivity |].
    split; [| reflexivity]. cbn [delay]. lia.
  - eexists (mkApi "/api/v2/resource" _), (mkTimer _ _ 200 _).
    split; [right; left; reflexivity |].
    split; [reflexivity |].
    split; [| reflexivity]. cbn [delay]. lia.
Qed.

Lemma regional_job_effects
    (r : Region) (w : World) (job : object) (rest : list object) :
  jobs (getQ (queue_of r) w) = job :: rest ->
  exists api t,
    In api mockRESTAPIs /\
    cb_res t = [("json", VFun FNoop)] /\
    200 <= delay t < 2500 /\
    regional_job r rnd1 rnd2 w =
      exec (done (queue_of r))
        (set_timers (timers w ++ [t])
           (set_trace
              (trace w ++
               [EvHandle (queue_of r) (endpoint api)
                  [("method", get "method" job); ("url", get "url" job)]])
              w)).
Proof.
  intros Hjobs.
  destruct (regional_process_effects (queue_of r) job w)
    as (api & t & Hin & Hres & Hdelay & Heq).
  exists api, t. repeat split; try assumption; try lia.
  unfold regional_job. rewrite Hjobs.
  unfold usaQueue_process, europeQueue_process, indiaQueue_process.
  destruct r; cbn [queue_of] in *; unfold exec at 1; rewrite Heq; reflexivity.
Qed.

End Draws.

(** Whatever the endpoint does, nothing escapes a worker: an error of the
    call itself is caught, and [done] is called either way. *)
Lemma regional_process_never_throws
    (q : QueueId) (rnd1 rnd2 : Q) (job : object) (w : World) :
  fst (regional_process q rnd1 rnd2 job w) = Ok tt.
Proof.
  unfold regional_process.
  destruct (index mockRESTAPIs _) as [api |]; [| reflexivity].
  unfold try_catch_finally, bind, emit.
  destruct (handleRequest api rnd2 _ _ _) as [[[] | e] w1]; reflexivity.
Qed.

(** The stub response object of the workers has no [status]: the callback
    of either endpoint throws. *)
Lemma run_callback_stub_throws (t : Timer) (w : World) :
  cb_res t = [("json", VFun FNoop)] ->
  run_callback t w = (Throw (TypeError "res.status is not a function"), w).
Proof.
  intros H. unfold run_callback, call_method. rewrite H. reflexivity.
Qed.

(** With a chainable [status], as on the response of the HTTP server, the
    same callback answers. *)
Lemma run_callback_chainable (d : Z) (body : object) (w : World) :
  run_callback
    (mkTimer d [("status", VFun FSelf); ("json", VFun FNoop)] 200 body) w
  = (Ok tt, set_trace (trace w ++ [EvRespond 200 body]) w).
Proof. reflexivity. Qed.

(** C4, at the input where the code departs from it.  A regional worker
    takes a job and calls the mock backend; when the timer the backend set
    fires, its callback calls [status] on the worker's stub response
    object, which has only [json].  The [TypeError] is raised outside the
    worker's [try]: nothing is written to the error console, the process
    ends on the uncaught error, and from then on no step changes anything,
    in any queue. *)
Theorem worker_backend_failure_escapes
    (r : Region) (rnd1 rnd2 : Q) (w : World) (job : object) (rest : list object) :
  proc w = Running ->
  random rnd1 -> random rnd2 ->
  jobs (getQ (queue_of r) w) = job :: rest ->
  let w1 := step (RegionalJob r rnd1 rnd2) w in
  let w2 := step (TimerFires (List.length (timers w))) w1 in
  proc w1 = Running /\
  proc w2 = Crashed (TypeError "res.status is not a function") /\
  count is_console_error (emitted w w2) = 0%nat /\
  (forall acts, run acts w2 = w2).
Proof.
  intros Hrun H1 H2 Hjobs w1 w2.
  destruct (regional_job_effects rnd1 rnd2 H1 H2 r w job rest Hjobs)
    as (api & t & _ & Hres & _ & Heq).
  assert (Hw1 : w1 = regional_job r rnd1 rnd2 w).
  { subst w1. unfold step. now rewrite Hrun. }
  rewrite Heq in Hw1. clear Heq.
  assert (Hp1 : proc w1 = Running).
  { rewrite Hw1. destruct w; run_handler; world_simpl.
    destruct r; exact Hrun. }
  assert (Ht1 : timers w1 = timers w ++ [t]).
  { rewrite Hw1. destruct w; run_handler; world_simpl.
    destruct r; reflexivity. }
  assert (Htr1 : exists ep req,
             trace w1 =
             trace w ++ [EvHandle (queue_of r) ep req; EvDone (queue_of r)]).
  { eexists _, _. rewrite Hw1. destruct w; run_handler; world_simpl.
    destruct r; world_simpl; rewrite <- app_assoc; reflexivity. }
  destruct Htr1 as (ep & req & Htr1).
  assert (Hw2 : w2 =
            uncaught (TypeError "res.status is not a function")
              (set_timers (remove_nth (List.length (timers w)) (timers w1)) w1)).
  { subst w2. unfold step. rewrite Hp1. unfold timer_fires.
    rewrite Ht1, nth_error_snoc.
    now rewrite (run_callback_stub_throws t _ Hres). }
  assert (Hp2 : proc w2 = Crashed (TypeError "res.status is not a function"))
    by (rewrite Hw2; reflexivity).
  split; [exact Hp1 |]. split; [exact Hp2 |]. split.
  - rewrite (emitted_app w w2
               [EvHandle (queue_of r) ep req; EvDone (queue_of r);
                EvUncaught (TypeError "res.status is not a function")]).
    + reflexivity.
    + rewrite Hw2. unfold uncaught. world_simpl. rewrite Htr1.
      now rewrite <- app_assoc.
  - intros acts. apply run_not_running. rewrite Hp2. discriminate.
Qed.

Lemma worker_backend_failure_escapes_witness :
  let job := stripped (job_for "USA" 1) in
  let w := with_region USA [job; job] in
  let w2 := step (TimerFires 0) (step (RegionalJob USA (1 # 4) (1 # 2)) w) in
  (proc w = Running /\ random (1 # 4) /\ random (1 # 2) /\
   jobs (getQ (queue_of USA) w) = [job; job]) /\
  proc w2 = Crashed (TypeError "res.status is not a function") /\
  run [RegionalJob USA (1 # 4) (1 # 2)] w2 = w2.
Proof.
  intros job w w2.
  assert (Ha : random (1 # 4)) by (split; discriminate || reflexivity).
  assert (Hb : random (1 # 2)) by (split; discriminate || reflexivity).
  destruct (worker_backend_failure_escapes USA (1 # 4) (1 # 2) w job [job]
              eq_refl Ha Hb eq_refl)
    as (_ & Hcrash & _ & Hstuck).
  split; [repeat split; (reflexivity || discriminate) |].
  split; [exact Hcrash | exact (Hstuck _)].
Defined.

(** C10.  A regional worker that takes a job calls the mock backend and
    then [done] at once: the step emits the call and the [done] and no
    response, the job has left the queue (its size is one less), and the
    response of the backend is still a pending timer, due no sooner than
    200 ms later.  With a single job in it the queue reports size 0 while
    the backend's response is outstanding. *)
Theorem worker_done_before_backend_responds
    (r : Region) (rnd1 rnd2 : Q) (w : World) (job : object) (rest : list object) :
  proc w = Running ->
  random rnd1 -> random rnd2 ->
  jobs (getQ (queue_of r) w) = job :: rest ->
  let w' := step (RegionalJob r rnd1 rnd2) w in
  (exists api,
     In api mockRESTAPIs /\
     emitted w w' =
       [EvHandle (queue_of r) (endpoint api)
          [("method", get "method" job); ("url", get "url" job)];
        EvDone (queue_of r)]) /\
  jobs (getQ (queue_of r) w') = rest /\
  S (size (getQ (queue_of r) w')) = size (getQ (queue_of r) w) /\
  (exists t, timers w' = timers w ++ [t] /\ 200 <= delay t) /\
  (rest = [] -> size (getQ (queue_of r) w') = 0%nat /\ timers w' <> []) /\
  proc w' = Running.
Proof.
  intros Hrun H1 H2 Hjobs w'.
  destruct (regional_job_effects rnd1 rnd2 H1 H2 r w job rest Hjobs)
    as (api & t & Hin & _ & Hdelay & Heq).
  assert (Hw' : w' = regional_job r rnd1 rnd2 w).
  { subst w'. unfold step. now rewrite Hrun. }
  rewrite Heq in Hw'. clear Heq.
  assert (Hq : jobs (getQ (queue_of r) w') = rest).
  { rewrite Hw'. destruct w; run_handler; world_simpl.
    destruct r; world_simpl; now rewrite Hjobs. }
  assert (Ht : timers w' = timers w ++ [t]).
  { rewrite Hw'. destruct w; run_handler; world_simpl.
    destruct r; reflexivity. }
  split; [| split; [| split; [| split; [| split]]]].
  - exists api. split; [exact Hin |]. apply emitted_app.
    rewrite Hw'. destruct w; run_handler; world_simpl.
    destruct r; world_simpl; now rewrite <- app_assoc.
  - exact Hq.
  - unfold size. rewrite Hq, Hjobs. reflexivity.
  - exists t. split; [exact Ht | lia].
  - intros ->. split.
    + unfold size. now rewrite Hq.
    + rewrite Ht. destruct (timers w); discriminate.
  - rewrite Hw'. destruct w; run_handler; world_simpl.
    destruct r; exact Hrun.
Qed.

Lemma worker_done_before_backend_responds_witness :
  let job := stripped (job_for "Europe" 2) in
  let w := with_region Europe [job] in
  let w' := step (RegionalJob Europe (3 # 4) (1 # 10)) w in
  (proc w = Running /\ random (3 # 4) /\ random (1 # 10) /\
   jobs (getQ (queue_of Europe) w) = [job]) /\
  size (europeQueue w') = 0%nat /\
  timers w' <> [].
Proof.
  intros job w w'.
  assert (Ha : random (3 # 4)) by (split; discriminate || reflexivity).
  assert (Hb : random (1 # 10)) by (split; discriminate || reflexivity).
  destruct (worker_done_before_backend_responds Europe (3 # 4) (1 # 10) w job []
              eq_refl Ha Hb eq_refl)
    as (_ & _ & _ & _ & Hlast & _).
  split; [repeat split; (reflexivity || discriminate) |].
  exact (Hlast eq_refl).
Defined.

(** ** The reporter *)

Lemma set_trace_same (w : World) : set_trace (trace w) w = w.
Proof. destruct w; reflexivity. Qed.

Lemma for_each_console_log {A : Type} (f : A -> string) (l : list A) (w : World) :
  for_each (fun x => console_log (f x)) l w =
    (Ok tt, set_trace (trace w ++ map (fun x => EvLog (f x)) l) w).
Proof.
  revert w. induction l as [| x l IH]; intros w.
  - cbn. now rewrite app_nil_r, set_trace_same.
  - cbn [for_each map]. unfold bind, console_log, emit. rewrite IH.
    cbn [trace set_trace]. now rewrite <- app_assoc.
Qed.

Lemma for_each_emit_log {A : Type} (f : A -> string) (l : list A) (w : World) :
  for_each (fun x w0 => (Ok tt, set_trace (trace w0 ++ [EvLog (f x)]) w0)) l w =
    (Ok tt, set_trace (trace w ++ map (fun x => EvLog (f x)) l) w).
Proof. exact (for_each_console_log f l w). Qed.

(** The lines of one tick, as the source writes them. *)
Lemma reporter_effects (w : World) :
  reporter w =
    (Ok tt,
     set_trace
       (trace w ++
        [EvLog "Queue performance analysis:";
         EvLog ("Main queue size: " ++ string_of_nat (size (mainQueue w)))%string;
         EvLog ("USA queue size: " ++ string_of_nat (size (usaQueue w)))%string]
        ++ (if Nat.eqb (size (europeQueue w)) 0 then []
            else [EvLog ("Europe queue size: "
                         ++ string_of_nat (size (europeQueue w)))%string])
        ++ [EvLog ("India queue size: "
                   ++ string_of_nat (size (indiaQueue w)))%string;
            EvLog "Queue logs:"]
        ++ map (fun log => EvLog (log_line log)) (queueLogs w))
       w).
Proof.
  unfold reporter. run_handler. world_simpl.
  destruct (Nat.eqb (size (europeQueue w)) 0).
  - rewrite (for_each_emit_log log_line). world_simpl.
    rewrite <- !app_assoc. reflexivity.
  - rewrite (for_each_emit_log log_line). world_simpl.
    rewrite <- !app_assoc. reflexivity.
Qed.

Example log_line_format :
  log_line (mkLog "usaQueue" (job_for "USA" 1700000000000)) =
  "usaQueue queue: GET /api/v1/resource (USA) [1700000000000]".
Proof. reflexivity. Qed.

Lemma reporter_reads_only (w : World) (q : QueueId) :
  getQ q (exec reporter w) = getQ q w.
Proof.
  unfold exec. rewrite reporter_effects. destruct q; reflexivity.
Qed.

(** While the Europe queue holds a job, a tick writes the four size lines
    and then one line per trace log entry. *)
Lemma reporter_four_lines (w : World) :
  proc w = Running ->
  size (europeQueue w) <> 0%nat ->
  emitted w (step ReporterTick w) =
    [EvLog "Queue performance analysis:";
     EvLog ("Main queue size: " ++ string_of_nat (size (mainQueue w)))%string;
     EvLog ("USA queue size: " ++ string_of_nat (size (usaQueue w)))%string;
     EvLog ("Europe queue size: " ++ string_of_nat (size (europeQueue w)))%string;
     EvLog ("India queue size: " ++ string_of_nat (size (indiaQueue w)))%string;
     EvLog "Queue logs:"]
    ++ map (fun log => EvLog (log_line log)) (queueLogs w).
Proof.
  intros Hrun He. unfold step. rewrite Hrun. unfold exec.
  rewrite reporter_effects. apply emitted_app. cbn [snd trace set_trace].
  apply Nat.eqb_neq in He. rewrite He. reflexivity.
Qed.

(** C7, at the input where the code departs from it.  When the Europe
    queue is empty, a tick of the reporter writes the size lines of the
    main, USA and India queues only: the Europe line is guarded by the
    size itself, so no snapshot line for that queue is emitted.  The trace
    log lines follow in the stated form, and no queue changes. *)
Theorem reporter_skips_empty_europe_queue (w : World) :
  proc w = Running ->
  size (europeQueue w) = 0%nat ->
  let w' := step ReporterTick w in
  emitted w w' =
    [EvLog "Queue performance analysis:";
     EvLog ("Main queue size: " ++ string_of_nat (size (mainQueue w)))%string;
     EvLog ("USA queue size: " ++ string_of_nat (size (usaQueue w)))%string;
     EvLog ("India queue size: " ++ string_of_nat (size (indiaQueue w)))%string;
     EvLog "Queue logs:"]
    ++ map (fun log => EvLog (log_line log)) (queueLogs w) /\
  (forall q, getQ q w' = getQ q w).
Proof.
  intros Hrun He w'. subst w'. unfold step. rewrite Hrun. split.
  - unfold exec. rewrite reporter_effects. apply emitted_app.
    cbn [snd trace set_trace]. rewrite He. reflexivity.
  - intros q. apply reporter_reads_only.
Qed.

Lemma reporter_skips_empty_europe_queue_witness :
  let w := step (AddSettles 0 Resolved)
             (step (HttpRequest (request_from "USA" "/orders") 1700000000000)
                init) in
  (proc w = Running /\ size (europeQueue w) = 0%nat) /\
  emitted w (step ReporterTick w) =
    [EvLog "Queue performance analysis:";
     EvLog "Main queue size: 1";
     EvLog "USA queue size: 0";
     EvLog "India queue size: 0";
     EvLog "Queue logs:";
     EvLog "mainQueue queue: POST /orders (USA) [1700000000000]"].
Proof.
  intros w. split; [split; reflexivity |].
  exact (proj1 (reporter_skips_empty_europe_queue w eq_refl eq_refl)).
Defined.

(** ** Intake, again: request ids and shutdown *)

Lemma accepted_not_falsy (req : Request) :
  http_request req -> ~ missing_field req ->
  falsy (req_method req) || falsy (req_url req)
  || falsy (get "location" (req_headers req)) = false.
Proof.
  intros Hreq Hn.
  destruct (falsy (req_method req) || falsy (req_url req)
            || falsy (get "location" (req_headers req))) eqn:Hv;
    [| reflexivity].
  exfalso. apply Hn. now apply (validate_rejects_iff_missing req Hreq).
Qed.

Lemma intake_accepts (now : Z) (req : Request) (w : World) :
  proc w = Running ->
  http_request req -> ~ missing_field req ->
  step (HttpRequest req now) w = queued now req w.
Proof.
  intros Hrun Hreq Hn. unfold step. rewrite Hrun. unfold exec.
  rewrite (app_accepts now req w (accepted_not_falsy req Hreq Hn)).
  unfold manageQueues, queued, intake_payload. run_handler.
  destruct w. world_simpl. now rewrite <- !app_assoc.
Qed.

Lemma intake_rejects (now : Z) (req : Request) (w : World) :
  proc w = Running ->
  http_request req -> missing_field req ->
  step (HttpRequest req now) w =
    set_trace (trace w ++ [EvRespond 400 [("error", VStr "Invalid request")]]) w.
Proof.
  intros Hrun Hreq Hm. unfold step. rewrite Hrun. unfold exec.
  apply (validate_rejects_iff_missing req Hreq) in Hm.
  now rewrite (app_rejects now req w Hm).
Qed.

Lemma gracefulShutdown_effects (w : World) :
  exec gracefulShutdown w = draining w.
Proof.
  unfold gracefulShutdown, draining, queues. destruct w.
  cbn [for_each]. run_handler. world_simpl.
  now rewrite <- !app_assoc.
Qed.

Lemma signal_starts_drains (s : Signal) (w : World) :
  proc w = Running -> step (SignalArrives s) w = draining w.
Proof.
  intros Hrun. unfold step. rewrite Hrun. apply gracefulShutdown_effects.
Qed.

(** C9, at the input where the code departs from it.  The request id is
    the clock reading in milliseconds: two accepted requests, whatever
    they are, that are handled at the same reading are queued with the
    same id. *)
Theorem same_clock_same_request_id
    (req1 req2 : Request) (now : Z) (w : World) :
  proc w = Running ->
  http_request req1 -> ~ missing_field req1 ->
  http_request req2 -> ~ missing_field req2 ->
  let w2 := step (HttpRequest req2 now) (step (HttpRequest req1 now) w) in
  pendingAdds w2 =
    pendingAdds w ++
    [(MainQ, intake_payload now req1); (MainQ, intake_payload now req2)] /\
  get "requestId" (intake_payload now req1) = VNum now /\
  get "requestId" (intake_payload now req2) = VNum now.
Proof.
  intros Hrun Hr1 Hn1 Hr2 Hn2 w2. subst w2.
  rewrite (intake_accepts now req1 w Hrun Hr1 Hn1).
  rewrite (intake_accepts now req2 (queued now req1 w) Hrun Hr2 Hn2).
  unfold queued. world_simpl. rewrite <- app_assoc. repeat split.
Qed.

Lemma same_clock_same_request_id_witness :
  let req1 := request_from "USA" "/orders" in
  let req2 := request_from "India" "/invoices" in
  let now := 1700000000000 in
  let w2 := step (HttpRequest req2 now) (step (HttpRequest req1 now) init) in
  (proc init = Running /\ http_request req1 /\ ~ missing_field req1 /\
   http_request req2 /\ ~ missing_field req2) /\
  req1 <> req2 /\
  map (fun p => get "requestId" (snd p)) (pendingAdds w2) =
    [VNum now; VNum now].
Proof.
  intros req1 req2 now w2.
  assert (Hr1 : http_request req1) by (repeat split; right; eexists; reflexivity).
  assert (Hr2 : http_request req2) by (repeat split; right; eexists; reflexivity).
  assert (Hn1 : ~ missing_field req1).
  { intros [[H | H] | [[H | H] | [H | H]]]; discriminate H. }
  assert (Hn2 : ~ missing_field req2).
  { intros [[H | H] | [[H | H] | [H | H]]]; discriminate H. }
  destruct (same_clock_same_request_id req1 req2 now init eq_refl Hr1 Hn1 Hr2 Hn2)
    as (Hadds & _ & _).
  split; [split; [reflexivity | tauto] |].
  split; [discriminate |].
  fold w2 in Hadds. rewrite Hadds. reflexivity.
Defined.

(** C8 as stated fails: after SIGTERM, with the four drains pending, a
    well-formed request is still answered 202 and handed to the main
    queue. *)
Lemma request_accepted_while_draining :
  let w1 := step (SignalArrives SIGTERM) init in
  let req := request_from "USA" "/orders" in
  let w2 := step (HttpRequest req 1700000000000) w1 in
  shutdowns w1 = [[]] /\
  filter is_respond (emitted w1 w2) =
    [EvRespond 202 [("message", VStr "Request queued for processing")]] /\
  pendingAdds w2 = [(MainQ, intake_payload 1700000000000 req)] /\
  size (mainQueue (step (AddSettles 0 Resolved) w2)) = 1%nat.
Proof. repeat split. Qed.

(** C8 (as amended).  A termination signal starts the four drains and
    leaves the process running, and the intake answers a request that
    arrives then exactly as it would have before the signal: 400 with
    nothing queued when a field is missing, otherwise 202 with the request
    handed to the main queue.  No other response is produced. *)
Theorem ingress_unchanged_while_draining
    (s : Signal) (req : Request) (now : Z) (w : World) :
  proc w = Running ->
  http_request req ->
  let w1 := step (SignalArrives s) w in
  let w2 := step (HttpRequest req now) w1 in
  proc w1 = Running /\
  shutdowns w1 = shutdowns w ++ [[]] /\
  emitted w1 w2 = emitted w (step (HttpRequest req now) w) /\
  (missing_field req ->
   emitted w1 w2 = [EvRespond 400 [("error", VStr "Invalid request")]] /\
   pendingAdds w2 = pendingAdds w1) /\
  (~ missing_field req ->
   filter is_respond (emitted w1 w2) =
     [EvRespond 202 [("message", VStr "Request queued for processing")]] /\
   pendingAdds w2 = pendingAdds w1 ++ [(MainQ, intake_payload now req)]).
Proof.
  intros Hrun Hreq w1 w2.
  assert (Hw1 : w1 = draining w) by (apply signal_starts_drains; exact Hrun).
  assert (Hrun1 : proc w1 = Running) by (rewrite Hw1; exact Hrun).
  split; [exact Hrun1 |]. split; [rewrite Hw1; reflexivity |].
  assert (Hrej : missing_field req ->
            emitted w1 w2 = [EvRespond 400 [("error", VStr "Invalid request")]]
            /\ emitted w (step (HttpRequest req now) w)
               = [EvRespond 400 [("error", VStr "Invalid request")]]
            /\ pendingAdds w2 = pendingAdds w1).
  { intros Hm. subst w2.
    rewrite (intake_rejects now req w1 Hrun1 Hreq Hm).
    rewrite (intake_rejects now req w Hrun Hreq Hm).
    repeat split; apply emitted_app; reflexivity. }
  assert (Hacc : ~ missing_field req ->
            emitted w1 w2 = skipn (List.length (trace w)) (trace (queued now req w))
            /\ emitted w (step (HttpRequest req now) w)
               = skipn (List.length (trace w)) (trace (queued now req w))
            /\ pendingAdds w2 = pendingAdds w1 ++ [(MainQ, intake_payload now req)]).
  { intros Hn. subst w2.
    rewrite (intake_accepts now req w1 Hrun1 Hreq Hn).
    rewrite (intake_accepts now req w Hrun Hreq Hn).
    unfold emitted, queued. world_simpl.
    rewrite !skipn_app, !skipn_all, !Nat.sub_diag. repeat split. }
  split; [| split].
  - destruct (falsy (req_method req) || falsy (req_url req)
              || falsy (get "location" (req_headers req))) eqn:Hv.
    + apply (validate_rejects_iff_missing req Hreq) in Hv.
      destruct (Hrej Hv) as (Ha & Hb & _). now rewrite Ha, Hb.
    + assert (Hn : ~ missing_field req).
      { intros Hm. apply (validate_rejects_iff_missing req Hreq) in Hm.
        congruence. }
      destruct (Hacc Hn) as (Ha & Hb & _). now rewrite Ha, Hb.
  - intros Hm. destruct (Hrej Hm) as (Ha & _ & Hc). now split.
  - intros Hn. destruct (Hacc Hn) as (Ha & _ & Hc). split; [| exact Hc].
    rewrite Ha. unfold queued. world_simpl.
    rewrite skipn_app, skipn_all, Nat.sub_diag. reflexivity.
Qed.

Lemma ingress_unchanged_while_draining_witness :
  let req := request_from "Europe" "/orders" in
  let w1 := step (SignalArrives SIGINT) init in
  let w2 := step (HttpRequest req 1700000000000) w1 in
  (proc init = Running /\ http_request req /\ ~ missing_field req) /\
  filter is_respond (emitted w1 w2) =
    [EvRespond 202 [("message", VStr "Request queued for processing")]].
Proof.
  intros req w1 w2.
  assert (Hr : http_request req) by (repeat split; right; eexists; reflexivity).
  assert (Hn : ~ missing_field req).
  { intros [[H | H] | [[H | H] | [H | H]]]; discriminate H. }
  destruct (ingress_unchanged_while_draining SIGINT req 1700000000000 init
              eq_refl Hr)
    as (_ & _ & _ & _ & Hacc).
  split; [split; [reflexivity | split; assumption] |].
  exact (proj1 (Hacc Hn)).
Defined.

(** ** Order of the backend calls of a region *)

Lemma enqueued_logs {A : Type} (q : QueueId) (f : A -> string) (l : list A) :
  enqueued q (map (fun x => EvLog (f x)) l) = [].
Proof. induction l as [| x l IH]; [reflexivity | exact IH]. Qed.

Lemma calls_logs {A : Type} (q : QueueId) (f : A -> string) (l : list A) :
  calls q (map (fun x => EvLog (f x)) l) = [].
Proof. induction l as [| x l IH]; [reflexivity | exact IH]. Qed.

Ltac trace_delta :=
  world_simpl; rewrite <- ?app_assoc; reflexivity.

Lemma app_queue_move (r : Region) (now : Z) (req : Request) (w : World) :
  QueueMove (queue_of r) w (exec (app now req) w).
Proof.
  unfold exec.
  destruct (falsy (req_method req) || falsy (req_url req)
            || falsy (get "location" (req_headers req))) eqn:Hv.
  - rewrite (app_rejects now req w Hv).
    eapply move_none; [reflexivity | destruct r; reflexivity | reflexivity ..].
  - rewrite (app_accepts now req w Hv). unfold manageQueues. run_handler.
    eapply move_none; [trace_delta | destruct r; reflexivity | reflexivity ..].
Qed.

Lemma add_settles_queue_move (r : Region) (i : nat) (o : Settle) (w : World) :
  QueueMove (queue_of r) w (add_settles i o w).
Proof.
  unfold add_settles.
  destruct (nth_error (pendingAdds w) i) as [[q payload] |].
  - destruct o as [| e]; run_handler.
    + destruct q, r;
        solve [ eapply move_none; [trace_delta | reflexivity ..]
              | eapply move_enqueue; [trace_delta | reflexivity ..] ].
    + eapply move_none; [trace_delta | destruct q, r; reflexivity ..].
  - eapply move_none with (l := []);
      [now rewrite app_nil_r | reflexivity ..].
Qed.

Lemma main_job_queue_move (r : Region) (o : Settle) (w : World) :
  QueueMove (queue_of r) w (main_job o w).
Proof.
  unfold main_job.
  destruct (jobs (mainQueue w)) as [| job rest].
  - eapply move_none with (l := []);
      [now rewrite app_nil_r | reflexivity ..].
  - unfold mainQueue_process.
    destruct (is_str (get "location" job) "USA");
      [| destruct (is_str (get "location" job) "Europe");
         [| destruct (is_str (get "location" job) "India")]];
      destruct o as [| e]; run_handler;
      destruct r;
      solve [ eapply move_none; [trace_delta | reflexivity ..]
            | eapply move_enqueue; [trace_delta | reflexivity ..] ].
Qed.

Lemma regional_job_queue_move
    (r r' : Region) (rnd1 rnd2 : Q) (w : World) :
  random rnd1 -> random rnd2 ->
  QueueMove (queue_of r) w (regional_job r' rnd1 rnd2 w).
Proof.
  intros H1 H2.
  destruct (jobs (getQ (queue_of r') w)) as [| job rest] eqn:Hjobs.
  - unfold regional_job. rewrite Hjobs.
    eapply move_none with (l := []);
      [now rewrite app_nil_r | reflexivity ..].
  - destruct (regional_job_effects rnd1 rnd2 H1 H2 r' w job rest Hjobs)
      as (api & t & _ & _ & _ & ->).
    run_handler.
    destruct r, r'; cbn [queue_of] in *;
      solve [ eapply move_none; [trace_delta | reflexivity ..]
            | eapply move_serve with (job := job);
              [trace_delta | world_simpl; rewrite Hjobs; reflexivity
              | reflexivity ..] ].
Qed.

Lemma timer_fires_queue_move (r : Region) (i : nat) (w : World) :
  QueueMove (queue_of r) w (timer_fires i w).
Proof.
  unfold timer_fires.
  destruct (nth_error (timers w) i) as [t |].
  - unfold run_callback, call_method, uncaught.
    destruct (get "status" (cb_res t)) as [| s | n | []]; run_handler;
      try (eapply move_none; [trace_delta | destruct r; reflexivity ..]).
    destruct (get "json" (cb_res t)) as [| s | n | []]; run_handler;
      eapply move_none; [trace_delta | destruct r; reflexivity ..].
  - eapply move_none with (l := []);
      [now rewrite app_nil_r | reflexivity ..].
Qed.

Lemma reporter_queue_move (r : Region) (w : World) :
  QueueMove (queue_of r) w (exec reporter w).
Proof.
  unfold exec. rewrite reporter_effects. cbn [snd].
  eapply move_none; [reflexivity | destruct r; reflexivity | |].
  - unfold enqueued. rewrite !flat_map_app.
    fold (enqueued (queue_of r)
            (map (fun log => EvLog (log_line log)) (queueLogs w))).
    rewrite enqueued_logs.
    destruct (Nat.eqb (size (europeQueue w)) 0); reflexivity.
  - unfold calls. rewrite !flat_map_app.
    fold (calls (queue_of r)
            (map (fun log => EvLog (log_line log)) (queueLogs w))).
    rewrite calls_logs.
    destruct (Nat.eqb (size (europeQueue w)) 0); reflexivity.
Qed.

Lemma drain_settles_queue_move
    (r : Region) (k : nat) (q : QueueId) (o : Settle) (w : World) :
  QueueMove (queue_of r) w (exec (drain_settles k q o) w).
Proof.
  unfold drain_settles. run_handler.
  destruct (nth_error (shutdowns w) k) as [resolved |].
  - destruct (existsb (QueueId_eqb q) resolved).
    + eapply move_none with (l := []);
        [now rewrite app_nil_r | reflexivity ..].
    + destruct o as [| e].
      * destruct (all_in (resolved ++ [q]));
          eapply move_none; [trace_delta | destruct r; reflexivity ..].
      * eapply move_none; [trace_delta | destruct r; reflexivity ..].
  - eapply move_none with (l := []);
      [now rewrite app_nil_r | reflexivity ..].
Qed.

Lemma step_queue_move (r : Region) (a : Action) (w : World) :
  well_drawn a -> QueueMove (queue_of r) w (step a w).
Proof.
  intros Hd. unfold step.
  destruct (proc w) eqn:Hrun;
    try (eapply move_none with (l := []);
         [now rewrite app_nil_r | reflexivity ..]).
  destruct a as [req now | i o | o | r' rnd1 rnd2 | i | | s | k q o].
  - apply app_queue_move.
  - apply add_settles_queue_move.
  - apply main_job_queue_move.
  - destruct Hd. now apply regional_job_queue_move.
  - apply timer_fires_queue_move.
  - apply reporter_queue_move.
  - rewrite gracefulShutdown_effects. unfold draining.
    eapply move_none; [trace_delta | destruct r; reflexivity ..].
  - apply drain_settles_queue_move.
Qed.

Lemma served_in_order_step (q : QueueId) (w w' : World) :
  served_in_order q w -> QueueMove q w w' -> served_in_order q w'.
Proof.
  intros (served & Henq & Hcalls) Hmove. unfold served_in_order.
  destruct Hmove as [l Htr Hjobs He Hc | l payload Htr Hjobs He Hc
                    | l job Htr Hjobs He Hc];
    rewrite Htr; unfold enqueued, calls in *; rewrite !flat_map_app, He, Hc.
  - exists served. rewrite Hjobs, !app_nil_r. now split.
  - exists served. rewrite Hjobs, app_nil_r, Henq, app_assoc. now split.
  - exists (served ++ [job]).
    rewrite app_nil_r, Henq, Hjobs, map_app, Hcalls, <- app_assoc.
    now split.
Qed.

Lemma served_in_order_run (r : Region) (acts : list Action) (w : World) :
  Forall well_drawn acts ->
  served_in_order (queue_of r) w ->
  served_in_order (queue_of r) (run acts w).
Proof.
  intros Hd. revert w.
  induction Hd as [| a acts Ha _ IH]; intros w Hw; [exact Hw |].
  cbn. apply IH.
  apply (served_in_order_step _ w); [exact Hw |].
  now apply step_queue_move.
Qed.

Lemma prefix_positions {A : Type} (l served rest : list A) :
  l = served ++ rest ->
  served = firstn (List.length served) l /\
  rest = skipn (List.length served) l.
Proof.
  intros ->. split.
  - rewrite firstn_app, firstn_all, Nat.sub_diag. cbn. now rewrite app_nil_r.
  - rewrite skipn_app, skipn_all, Nat.sub_diag. reflexivity.
Qed.

(** C6.  In every run of the process from its start, whatever the
    interleaving of requests, dispatches, worker runs, timers, ticks and
    signals and whatever delays the backend draws, the worker of a region
    hands jobs to the backend in the order in which their adds to that
    region's queue resolved: the n backend calls made so far are for the
    first n jobs enqueued, in that order, and the queue holds the jobs
    enqueued after them. *)
Theorem regional_queue_is_fifo (r : Region) (acts : list Action) :
  Forall well_drawn acts ->
  let w := run acts init in
  let q := queue_of r in
  let n := List.length (calls q (trace w)) in
  calls q (trace w) = map backend_req (firstn n (enqueued q (trace w))) /\
  jobs (getQ q w) = skipn n (enqueued q (trace w)).
Proof.
  intros Hd w q n.
  assert (Hinit : served_in_order q init).
  { exists []. subst q. destruct r; split; reflexivity. }
  destruct (served_in_order_run r acts init Hd Hinit) as (served & Henq & Hcalls).
  fold w q in Henq, Hcalls.
  destruct (prefix_positions _ _ _ Henq) as (Hfirst & Hskip).
  assert (Hn : n = List.length served).
  { subst n. now rewrite Hcalls, length_map. }
  rewrite Hn, <- Hfirst, <- Hskip. now split.
Qed.

Lemma regional_queue_is_fifo_witness :
  let a := request_from "USA" "/slow" in
  let b := request_from "USA" "/fast" in
  let acts :=
    [HttpRequest a 1; HttpRequest b 2; AddSettles 0 Resolved;
     AddSettles 0 Resolved; MainJob Resolved; MainJob Resolved;
     RegionalJob USA (0 # 1) (999 # 1000); ReporterTick;
     RegionalJob USA (1 # 2) (0 # 1)] in
  Forall well_drawn acts /\
  calls UsaQ (trace (run acts init)) =
    [[("method", VStr "POST"); ("url", VStr "/slow")];
     [("method", VStr "POST"); ("url", VStr "/fast")]] /\
  map delay (timers (run acts init)) = [2498; 200].
Proof.
  intros a b acts.
  assert (Hd : Forall well_drawn acts).
  { repeat constructor; discriminate. }
  split; [exact Hd |].
  split; [| reflexivity].
  exact (proj1 (regional_queue_is_fifo USA acts Hd)).
Defined.

(** ** Shutdown *)

Ltac names_stay :=
  let q0 := fresh "q" in
  intros q0; cbn [fst snd]; world_simpl; destruct q0; reflexivity.

Ltac trace_grows :=
  cbn [fst snd];
  first [ trace_delta | symmetry; apply app_nil_r ].

Ltac keeps_running Hrun :=
  split;
  [ names_stay
  | eapply shutdown_kept;
    [ trace_grows
    | reflexivity
    | intros code; cbn [fst snd]; world_simpl; first [rewrite Hrun | idtac];
      discriminate ] ].

Lemma app_shutdown_move (now : Z) (req : Request) (w : World) :
  proc w = Running ->
  names_kept w (exec (app now req) w) /\
  ShutdownMove w (exec (app now req) w).
Proof.
  intros Hrun. unfold exec.
  destruct (falsy (req_method req) || falsy (req_url req)
            || falsy (get "location" (req_headers req))) eqn:Hv.
  - rewrite (app_rejects now req w Hv). keeps_running Hrun.
  - rewrite (app_accepts now req w Hv). unfold manageQueues. run_handler.
    keeps_running Hrun.
Qed.

Lemma add_settles_shutdown_move (i : nat) (o : Settle) (w : World) :
  proc w = Running ->
  names_kept w (add_settles i o w) /\ ShutdownMove w (add_settles i o w).
Proof.
  intros Hrun. unfold add_settles.
  destruct (nth_error (pendingAdds w) i) as [[q payload] |];
    [| keeps_running Hrun].
  destruct o as [| e]; run_handler; [destruct q |]; keeps_running Hrun.
Qed.

Lemma main_job_shutdown_move (o : Settle) (w : World) :
  proc w = Running ->
  names_kept w (main_job o w) /\ ShutdownMove w (main_job o w).
Proof.
  intros Hrun. unfold main_job.
  destruct (jobs (mainQueue w)) as [| job rest]; [keeps_running Hrun |].
  unfold mainQueue_process.
  destruct (is_str (get "location" job) "USA");
    [| destruct (is_str (get "location" job) "Europe");
       [| destruct (is_str (get "location" job) "India")]];
    destruct o as [| e]; run_handler; keeps_running Hrun.
Qed.

Lemma regional_process_shutdown_move
    (q : QueueId) (rnd1 rnd2 : Q) (job : object) (w : World) :
  proc w = Running ->
  names_kept w (exec (regional_process q rnd1 rnd2 job) w) /\
  ShutdownMove w (exec (regional_process q rnd1 rnd2 job) w).
Proof.
  intros Hrun. unfold regional_process, index.
  destruct (_ <? 0).
  - run_handler. destruct q; keeps_running Hrun.
  - destruct (Z.to_nat _) as [| [| n]]; cbn [nth_error mockRESTAPIs].
    + run_handler. cbn [handleRequest endpoint]. run_handler.
      destruct q; keeps_running Hrun.
    + run_handler. cbn [handleRequest endpoint]. run_handler.
      destruct q; keeps_running Hrun.
    + rewrite nth_error_nil. run_handler. destruct q; keeps_running Hrun.
Qed.

Lemma regional_job_shutdown_move (r : Region) (rnd1 rnd2 : Q) (w : World) :
  proc w = Running ->
  names_kept w (regional_job r rnd1 rnd2 w) /\
  ShutdownMove w (regional_job r rnd1 rnd2 w).
Proof.
  intros Hrun. unfold regional_job.
  destruct (jobs (getQ (queue_of r) w)) as [| job rest]; [keeps_running Hrun |].
  destruct r; now apply regional_process_shutdown_move.
Qed.

Lemma timer_fires_shutdown_move (i : nat) (w : World) :
  proc w = Running ->
  names_kept w (timer_fires i w) /\ ShutdownMove w (timer_fires i w).
Proof.
  intros Hrun. unfold timer_fires.
  destruct (nth_error (timers w) i) as [t |]; [| keeps_running Hrun].
  unfold run_callback, call_method, uncaught.
  destruct (get "status" (cb_res t)) as [| s | n | []]; run_handler;
    try keeps_running Hrun.
  destruct (get "json" (cb_res t)) as [| s | n | []]; run_handler;
    keeps_running Hrun.
Qed.

Lemma drain_settles_shutdown_move
    (k : nat) (q : QueueId) (o : Settle) (w : World) :
  proc w = Running ->
  names_kept w (exec (drain_settles k q o) w) /\
  ShutdownMove w (exec (drain_settles k q o) w).
Proof.
  intros Hrun. unfold drain_settles. run_handler.
  destruct (nth_error (shutdowns w) k) as [resolved |] eqn:Hk;
    [| keeps_running Hrun].
  destruct (existsb (QueueId_eqb q) resolved); [keeps_running Hrun |].
  destruct o as [| e].
  - split.
    + destruct (all_in (resolved ++ [q])); names_stay.
    + apply (drain_resolved _ _ k q resolved); [exact Hk | | |].
      * destruct (all_in (resolved ++ [q])); reflexivity.
      * intros ->. split; [reflexivity | trace_delta].
      * intros ->. split; [exact Hrun | reflexivity].
  - split; [names_stay |].
    apply (drain_rejected _ _ k resolved e);
      [exact Hk | trace_delta | reflexivity ..].
Qed.

Lemma step_shutdown_move (a : Action) (w : World) :
  proc w = Running ->
  names_kept w (step a w) /\ ShutdownMove w (step a w).
Proof.
  intros Hrun. unfold step. rewrite Hrun.
  destruct a as [req now | i o | o | r rnd1 rnd2 | i | | s | k q o].
  - now apply app_shutdown_move.
  - now apply add_settles_shutdown_move.
  - now apply main_job_shutdown_move.
  - now apply regional_job_shutdown_move.
  - now apply timer_fires_shutdown_move.
  - unfold exec. rewrite reporter_effects. keeps_running Hrun.
  - rewrite gracefulShutdown_effects. unfold draining. split; [names_stay |].
    now apply shutdown_started.
  - now apply drain_settles_shutdown_move.
Qed.

Lemma QueueId_eqb_eq (a b : QueueId) : QueueId_eqb a b = true <-> a = b.
Proof. destruct a, b; cbn; split; congruence. Qed.

Lemma settled_In (q : QueueId) (l : list QueueId) :
  existsb (QueueId_eqb q) l = true <-> In q l.
Proof.
  rewrite existsb_exists. split.
  - intros (x & Hin & Heq). apply QueueId_eqb_eq in Heq. now subst.
  - intros Hin. exists q. split; [exact Hin | now apply QueueId_eqb_eq].
Qed.

Lemma all_in_In (l : list QueueId) :
  all_in l = true <-> forall q, In q l.
Proof.
  unfold all_in. rewrite forallb_forall. split.
  - intros H q. apply settled_In, H. destruct q; cbn; tauto.
  - intros H q _. apply settled_In, H.
Qed.

Lemma nth_error_replace_nth {A : Type} (k k' : nat) (x y : A) (l : list A) :
  nth_error (replace_nth k x l) k' = Some y ->
  (k' = k /\ y = x) \/ nth_error l k' = Some y.
Proof.
  revert k k'. induction l as [| z l IH]; intros k k' H.
  - destruct k; cbn in H; now rewrite nth_error_nil in H.
  - destruct k as [| k], k' as [| k']; cbn in *.
    + left. split; congruence.
    + now right.
    + now right.
    + destruct (IH k k' H) as [[-> ->] | Hold]; [left | right]; auto.
Qed.

Lemma nth_error_snoc_cases {A : Type} (l : list A) (x y : A) (k : nat) :
  nth_error (l ++ [x]) k = Some y -> nth_error l k = Some y \/ y = x.
Proof.
  intros H. destruct (Nat.lt_ge_cases k (List.length l)) as [Hlt | Hge].
  - left. now rewrite nth_error_app1 in H.
  - right. rewrite nth_error_app2 in H by exact Hge.
    destruct (k - List.length l)%nat as [| n]; cbn in H;
      [congruence | now rewrite nth_error_nil in H].
Qed.

Lemma nth_error_nonempty {A : Type} (l : list A) (k : nat) (x : A) :
  nth_error l k = Some x -> l <> [].
Proof. intros H ->. now rewrite nth_error_nil in H. Qed.

Lemma shutdown_inv_init : ShutdownInv init.
Proof.
  constructor.
  - reflexivity.
  - intros H. now destruct H.
  - intros k resolved q Hk. cbn in Hk. now rewrite nth_error_nil in Hk.
  - intros code Hc. discriminate Hc.
Qed.

Lemma shutdown_inv_step (a : Action) (w : World) :
  ShutdownInv w -> ShutdownInv (step a w).
Proof.
  intros Hinv.
  destruct (proc w) eqn:Hrun.
  2, 3: rewrite step_not_running by (rewrite Hrun; discriminate);
        exact Hinv.
  destruct Hinv as [Hnames Hinvoked Hlogged _].
  destruct (step_shutdown_move a w Hrun) as [Hkept Hmove].
  set (w' := step a w) in *.
  assert (Hnames' : forall q, name (getQ q w') = name (getQ q init)).
  { intros q. now rewrite Hkept. }
  destruct Hmove as [l Htr Hsd Hproc | Htr Hsd Hproc
                    | k q resolved Hk Hsd Hlast Hmore
                    | k resolved e Hk Htr Hsd Hproc].
  - constructor; [exact Hnames' | | |].
    + rewrite Hsd, Htr. intros Hne q. apply in_or_app. left. now apply Hinvoked.
    + rewrite Hsd, Htr. intros k resolved q Hk Hq.
      apply in_or_app. left. exact (Hlogged k resolved q Hk Hq).
    + intros code Hc. now destruct (Hproc code).
  - constructor; [exact Hnames' | | |].
    + rewrite Htr. intros _ q. apply in_or_app. right.
      destruct q; cbn; tauto.
    + rewrite Hsd, Htr. intros k resolved q Hk Hq.
      destruct (nth_error_snoc_cases _ _ _ _ Hk) as [Hold | ->];
        [| destruct Hq].
      apply in_or_app. left. exact (Hlogged k resolved q Hold Hq).
    + intros code Hc. rewrite Hproc in Hc. discriminate Hc.
  - pose proof (Hinvoked (nth_error_nonempty _ _ _ Hk)) as Hdrains.
    assert (Hline : forall l,
              trace w' =
                trace w ++ EvLog (name (getQ q w) ++ " queue drained")%string :: l ->
              forall q', In q' (resolved ++ [q]) ->
              In (drained_line q')
                 (trace w ++ [EvLog (name (getQ q w) ++ " queue drained")%string])).
    { intros l _ q' Hq'. apply in_app_iff in Hq' as [Hq' | [<- | []]].
      - apply in_or_app. left. exact (Hlogged k resolved q' Hk Hq').
      - apply in_or_app. right. left. unfold drained_line.
        now rewrite Hnames. }
    destruct (all_in (resolved ++ [q])) eqn:Hall.
    + destruct (Hlast eq_refl) as [Hproc Htr].
      constructor; [exact Hnames' | | |].
      * rewrite Htr. intros _ q'. apply in_or_app. left. apply Hdrains.
      * rewrite Hsd. intros k' resolved' q' Hk' Hq'.
        assert (Hin : In q' (resolved ++ [q]) \/ In (drained_line q') (trace w)).
        { destruct (nth_error_replace_nth _ _ _ _ _ Hk') as [[-> ->] | Hold];
            [now left | right; exact (Hlogged k' resolved' q' Hold Hq')]. }
        rewrite Htr. destruct Hin as [Hin | Hin].
        -- change (trace w ++ [?a; ?b; ?c]) with (trace w ++ [a] ++ [b; c]).
           rewrite app_assoc. apply in_or_app. left.
           exact (Hline _ Htr q' Hin).
        -- apply in_or_app. now left.
      * intros code Hc. rewrite Hproc in Hc. injection Hc as <-.
        exists (trace w ++
                [EvLog (name (getQ q w) ++ " queue drained")%string;
                 EvLog "All queues drained. Shutting down..."]).
        split; [rewrite Htr, <- app_assoc; reflexivity |].
        split; [intros q'; apply in_or_app; left; apply Hdrains |].
        left. split; [reflexivity |]. intros q'.
        change (trace w ++ [?a; ?b]) with (trace w ++ [a] ++ [b]).
        rewrite app_assoc. apply in_or_app. left.
        apply (Hline _ Htr q'). now apply all_in_In.
    + destruct (Hmore eq_refl) as [Hproc Htr].
      constructor; [exact Hnames' | | |].
      * rewrite Htr. intros _ q'. apply in_or_app. left. apply Hdrains.
      * rewrite Hsd. intros k' resolved' q' Hk' Hq'. rewrite Htr.
        destruct (nth_error_replace_nth _ _ _ _ _ Hk') as [[-> ->] | Hold].
        -- exact (Hline _ Htr q' Hq').
        -- apply in_or_app. left. exact (Hlogged k' resolved' q' Hold Hq').
      * intros code Hc. rewrite Hproc in Hc. discriminate Hc.
  - pose proof (Hinvoked (nth_error_nonempty _ _ _ Hk)) as Hdrains.
    constructor; [exact Hnames' | | |].
    + rewrite Htr. intros _ q. apply in_or_app. left. apply Hdrains.
    + rewrite Hsd, Htr. intros k' resolved' q' Hk' Hq'.
      apply in_or_app. left. exact (Hlogged k' resolved' q' Hk' Hq').
    + intros code Hc. rewrite Hproc in Hc. injection Hc as <-.
      exists (trace w ++ [EvErrorWith "Error during graceful shutdown:" e]).
      split; [rewrite Htr, <- app_assoc; reflexivity |].
      split; [intros q; apply in_or_app; left; apply Hdrains |].
      right. split; [reflexivity |]. exists e.
      apply in_or_app. right. now left.
Qed.

Lemma shutdown_inv_run (acts : list Action) (w : World) :
  ShutdownInv w -> ShutdownInv (run acts w).
Proof.
  revert w. induction acts as [| a acts IH]; intros w Hw; [exact Hw |].
  cbn. apply IH. now apply shutdown_inv_step.
Qed.

Lemma last_drain_exits_0
    (k : nat) (q : QueueId) (resolved : list QueueId) (w : World) :
  proc w = Running ->
  nth_error (shutdowns w) k = Some resolved ->
  ~ In q resolved ->
  (forall q', In q' (resolved ++ [q])) ->
  proc (step (DrainSettles k q Resolved) w) = Exited 0.
Proof.
  intros Hrun Hk Hq Hall.
  unfold step. rewrite Hrun. unfold drain_settles. run_handler. rewrite Hk.
  destruct (existsb (QueueId_eqb q) resolved) eqn:Hs;
    [now apply settled_In in Hs |].
  apply all_in_In in Hall. now rewrite Hall.
Qed.

Lemma earlier_drain_keeps_running
    (k : nat) (q : QueueId) (resolved : list QueueId) (w : World) :
  proc w = Running ->
  nth_error (shutdowns w) k = Some resolved ->
  ~ In q resolved ->
  ~ (forall q', In q' (resolved ++ [q])) ->
  proc (step (DrainSettles k q Resolved) w) = Running.
Proof.
  intros Hrun Hk Hq Hall.
  unfold step. rewrite Hrun. unfold drain_settles. run_handler. rewrite Hk.
  destruct (existsb (QueueId_eqb q) resolved) eqn:Hs;
    [now apply settled_In in Hs |].
  destruct (all_in (resolved ++ [q])) eqn:Ha;
    [exfalso; apply Hall; now apply all_in_In |].
  exact Hrun.
Qed.

Lemma failed_drain_exits_1
    (k : nat) (q : QueueId) (resolved : list QueueId) (e : error) (w : World) :
  proc w = Running ->
  nth_error (shutdowns w) k = Some resolved ->
  ~ In q resolved ->
  let w' := step (DrainSettles k q (Rejected e)) w in
  proc w' = Exited 1 /\
  emitted w w' =
    [EvErrorWith "Error during graceful shutdown:" e; EvExit 1].
Proof.
  intros Hrun Hk Hq w'. subst w'.
  unfold step. rewrite Hrun. unfold drain_settles. run_handler. rewrite Hk.
  destruct (existsb (QueueId_eqb q) resolved) eqn:Hs;
    [now apply settled_In in Hs |].
  world_simpl. split; [reflexivity |]. apply emitted_app. world_simpl.
  now rewrite <- !app_assoc.
Qed.

(** C5.  In any state [w] the process reaches from its start: (1) either
    termination signal, while the process runs, calls [drain] on the main,
    USA, Europe and India queues; (2) when a pending drain of a shutdown
    resolves, the process exits with code 0 if that was the last of the
    four and keeps running otherwise; (3) when a pending drain rejects,
    the cause is logged and the process exits with code 1; (4) if the
    process has left through [process.exit], the exit is the last event,
    [drain] was called on every queue before it, and either the code is 0
    and every queue's drain had resolved (its "queue drained" line was
    written) or the code is 1 and the cause had been logged. *)
Theorem shutdown_drains_then_exits (acts : list Action) :
  let w := run acts init in
  (forall s,
     proc w = Running ->
     emitted w (step (SignalArrives s) w) =
       [EvLog "Gracefully shutting down the server..."; EvDrain MainQ;
        EvDrain UsaQ; EvDrain EuropeQ; EvDrain IndiaQ]) /\
  (forall k q resolved,
     proc w = Running ->
     nth_error (shutdowns w) k = Some resolved ->
     ~ In q resolved ->
     let w' := step (DrainSettles k q Resolved) w in
     ((forall q', In q' (resolved ++ [q])) -> proc w' = Exited 0) /\
     (~ (forall q', In q' (resolved ++ [q])) -> proc w' = Running)) /\
  (forall k q resolved e,
     proc w = Running ->
     nth_error (shutdowns w) k = Some resolved ->
     ~ In q resolved ->
     let w' := step (DrainSettles k q (Rejected e)) w in
     proc w' = Exited 1 /\
     emitted w w' =
       [EvErrorWith "Error during graceful shutdown:" e; EvExit 1]) /\
  (forall code,
     proc w = Exited code ->
     exists before,
       trace w = before ++ [EvExit code] /\
       (forall q, In (EvDrain q) before) /\
       ((code = 0 /\ forall q, In (drained_line q) before) \/
        (code = 1 /\
         exists e,
           In (EvErrorWith "Error during graceful shutdown:" e) before))).
Proof.
  intros w. split; [| split; [| split]].
  - intros s Hrun. rewrite (signal_starts_drains s w Hrun).
    apply emitted_app. reflexivity.
  - intros k q resolved Hrun Hk Hq w'. split.
    + now apply last_drain_exits_0.
    + now apply earlier_drain_keeps_running.
  - intros k q resolved e Hrun Hk Hq.
    now apply (failed_drain_exits_1 k q resolved).
  - apply (inv_exit w). apply shutdown_inv_run, shutdown_inv_init.
Qed.

Lemma shutdown_drains_then_exits_witness :
  let acts :=
    [HttpRequest (request_from "India" "/orders") 1700000000000;
     SignalArrives SIGTERM; AddSettles 0 Resolved;
     DrainSettles 0 UsaQ Resolved; MainJob Resolved;
     DrainSettles 0 MainQ Resolved; DrainSettles 0 IndiaQ Resolved;
     DrainSettles 0 EuropeQ Resolved; ReporterTick] in
  proc (run acts init) = Exited 0 /\
  exists before,
    trace (run acts init) = before ++ [EvExit 0] /\
    (forall q, In (EvDrain q) before) /\
    ((0 = 0 /\ forall q, In (drained_line q) before) \/
     (0 = 1 /\
      exists e, In (EvErrorWith "Error during graceful shutdown:" e) before)).
Proof.
  intros acts. split; [reflexivity |].
  exact (proj2 (proj2 (proj2 (shutdown_drains_then_exits acts))) 0 eq_refl).
Defined.

(** * Further properties of the code *)

(** ** The mock endpoints *)

Lemma Qfloor_scaled (n : Z) (m : positive) :
  Qfloor ((n # m) * inject_Z (Zpos m)) = n.
Proof.
  unfold Qfloor, Qmult, inject_Z. cbn [Qnum Qden].
  rewrite Pos.mul_1_r. apply Z.div_mul. discriminate.
Qed.

Lemma ratio_random (n : Z) (m : positive) :
  0 <= n < Zpos m -> random (n # m).
Proof.
  intros [H0 H1]. unfold random, Qle, Qlt. cbn [Qnum Qden]. lia.
Qed.

(** X1.  [handleRequest] of the first endpoint, for any request and any
    response object: it throws nothing and answers nothing, its only
    effect is one new timer that holds the response object it was given
    and the v1 body, and the delay of that timer is an integer in
    [500, 2500).  Every integer of that range is the delay of some draw. *)
Theorem v1_endpoint_schedules_one_response
    (rnd : Q) (req res : object) (w : World) :
  random rnd ->
  exists api d,
    index mockRESTAPIs 0 = Some api /\
    endpoint api = "/api/v1/resource" /\
    500 <= d < 2500 /\
    handleRequest api rnd req res w =
      (Ok tt,
       set_timers
         (timers w ++
          [mkTimer d res 200 [("message", VStr "REST API v1 response")]])
         w) /\
    (forall d', 500 <= d' < 2500 ->
       exists rnd', random rnd' /\
         handleRequest api rnd' req res w =
           (Ok tt,
            set_timers
              (timers w ++
               [mkTimer d' res 200 [("message", VStr "REST API v1 response")]])
              w)).
Proof.
  intros Hr.
  pose proof (Qfloor_random rnd 2000 Hr ltac:(lia)) as Hd.
  eexists _, (Qfloor (rnd * inject_Z 2000) + 500).
  split; [reflexivity |]. split; [reflexivity |]. split; [lia |].
  split; [reflexivity |].
  intros d' Hd'. exists ((d' - 500) # 2000). split.
  - apply ratio_random. lia.
  - cbn [handleRequest]. rewrite (Qfloor_scaled (d' - 500) 2000).
    now replace (d' - 500 + 500) with d' by lia.
Qed.

Lemma v1_endpoint_schedules_one_response_witness :
  random (1 # 4) /\
  exists api d,
    index mockRESTAPIs 0 = Some api /\
    endpoint api = "/api/v1/resource" /\
    500 <= d < 2500 /\
    handleRequest api (1 # 4) [] [] init =
      (Ok tt,
       set_timers
         (timers init ++
          [mkTimer d [] 200 [("message", VStr "REST API v1 response")]])
         init).
Proof.
  assert (Hr : random (1 # 4)) by (split; discriminate || reflexivity).
  split; [exact Hr |].
  destruct (v1_endpoint_schedules_one_response (1 # 4) [] [] init Hr)
    as (api & d & Hidx & Hep & Hd & Heq & _).
  exists api, d. repeat split; try assumption; apply Hd.
Defined.

(** X2.  [handleRequest] of the second endpoint: the same, with the v2
    body and a delay that is an integer in [200, 1200), each of which is
    the delay of some draw. *)
Theorem v2_endpoint_schedules_one_response
    (rnd : Q) (req res : object) (w : World) :
  random rnd ->
  exists api d,
    index mockRESTAPIs 1 = Some api /\
    endpoint api = "/api/v2/resource" /\
    200 <= d < 1200 /\
    handleRequest api rnd req res w =
      (Ok tt,
       set_timers
         (timers w ++
          [mkTimer d res 200 [("message", VStr "REST API v2 response")]])
         w) /\
    (forall d', 200 <= d' < 1200 ->
       exists rnd', random rnd' /\
         handleRequest api rnd' req res w =
           (Ok tt,
            set_timers
              (timers w ++
               [mkTimer d' res 200 [("message", VStr "REST API v2 response")]])
              w)).
Proof.
  intros Hr.
  pose proof (Qfloor_random rnd 1000 Hr ltac:(lia)) as Hd.
  eexists _, (Qfloor (rnd * inject_Z 1000) + 200).
  split; [reflexivity |]. split; [reflexivity |]. split; [lia |].
  split; [reflexivity |].
  intros d' Hd'. exists ((d' - 200) # 1000). split.
  - apply ratio_random. lia.
  - cbn [handleRequest]. rewrite (Qfloor_scaled (d' - 200) 1000).
    now replace (d' - 200 + 200) with d' by lia.
Qed.

Lemma v2_endpoint_schedules_one_response_witness :
  random (9 # 10) /\
  exists api d,
    index mockRESTAPIs 1 = Some api /\
    endpoint api = "/api/v2/resource" /\
    200 <= d < 1200 /\
    handleRequest api (9 # 10) [] [] init =
      (Ok tt,
       set_timers
         (timers init ++
          [mkTimer d [] 200 [("message", VStr "REST API v2 response")]])
         init).
Proof.
  assert (Hr : random (9 # 10)) by (split; discriminate || reflexivity).
  split; [exact Hr |].
  destruct (v2_endpoint_schedules_one_response (9 # 10) [] [] init Hr)
    as (api & d & Hidx & Hep & Hd & Heq & _).
  exists api, d. repeat split; try assumption; apply Hd.
Defined.

(** ** The choice of the endpoint *)

Lemma lower_half_picks_0 (r : Q) :
  random r -> (r < 1 # 2)%Q -> Qfloor (r * inject_Z 2) = 0.
Proof.
  destruct r as [n d]. unfold random, Qle, Qlt, Qfloor, Qmult, inject_Z.
  cbn [Qnum Qden]. intros [H0 _] Hh.
  apply Z.div_small. lia.
Qed.

Lemma upper_half_picks_1 (r : Q) :
  random r -> (1 # 2 <= r)%Q -> Qfloor (r * inject_Z 2) = 1.
Proof.
  destruct r as [n d]. unfold random, Qle, Qlt, Qfloor, Qmult, inject_Z.
  cbn [Qnum Qden]. intros [_ H1] Hh.
  symmetry. apply (Z.div_unique_pos _ _ 1 (n * 2 - Zpos (d * 1))); lia.
Qed.

Lemma regional_process_at (q : QueueId) (rnd1 rnd2 : Q) (job : object)
    (i : Z) (api : MockApi) (w : World) :
  Qfloor (rnd1 * inject_Z 2) = i ->
  index mockRESTAPIs i = Some api ->
  regional_process q rnd1 rnd2 job w =
    try_catch_finally
      (emit (EvHandle q (endpoint api) (backend_req job)) ;;
       handleRequest api rnd2 (backend_req job) [("json", VFun FNoop)])
      (fun error =>
         console_error_with
           ("Error processing job " ++ tmpl (get "requestId" job) ++ ":")%string
           error)
      (done q) w.
Proof.
  intros Hi Hapi. unfold regional_process.
  change (Z.of_nat (List.length mockRESTAPIs)) with 2.
  rewrite Hi, Hapi. reflexivity.
Qed.

Lemma regional_job_unfold (r : Region) (rnd1 rnd2 : Q) (w : World)
    (job : object) (rest : list object) :
  jobs (getQ (queue_of r) w) = job :: rest ->
  regional_job r rnd1 rnd2 w =
    exec (regional_process (queue_of r) rnd1 rnd2 job) w.
Proof.
  intros Hjobs. unfold regional_job. rewrite Hjobs. now destruct r.
Qed.

(** X3.  A regional worker picks the endpoint by the half its first draw
    falls in: below 1/2 it calls [/api/v1/resource] and the pending
    response is due in [500, 2500) ms, from 1/2 on it calls
    [/api/v2/resource] and the response is due in [200, 1200) ms.  In both
    cases the request it hands over holds the job's method and url only,
    and the response object is the stub with the single property [json]. *)
Theorem worker_picks_endpoint_by_halves
    (r : Region) (rnd1 rnd2 : Q) (w : World) (job : object) (rest : list object) :
  proc w = Running ->
  random rnd1 -> random rnd2 ->
  jobs (getQ (queue_of r) w) = job :: rest ->
  let w' := step (RegionalJob r rnd1 rnd2) w in
  ((rnd1 < 1 # 2)%Q ->
   emitted w w' =
     [EvHandle (queue_of r) "/api/v1/resource" (backend_req job);
      EvDone (queue_of r)] /\
   exists d, 500 <= d < 2500 /\
     timers w' =
       timers w ++
       [mkTimer d [("json", VFun FNoop)] 200
          [("message", VStr "REST API v1 response")]]) /\
  ((1 # 2 <= rnd1)%Q ->
   emitted w w' =
     [EvHandle (queue_of r) "/api/v2/resource" (backend_req job);
      EvDone (queue_of r)] /\
   exists d, 200 <= d < 1200 /\
     timers w' =
       timers w ++
       [mkTimer d [("json", VFun FNoop)] 200
          [("message", VStr "REST API v2 response")]]).
Proof.
  intros Hrun H1 H2 Hjobs w'. subst w'.
  unfold step. rewrite Hrun, (regional_job_unfold r rnd1 rnd2 w job rest Hjobs).
  unfold exec. split; intros Hhalf.
  - rewrite (regional_process_at _ _ _ _ 0 _ _
               (lower_half_picks_0 rnd1 H1 Hhalf) eq_refl).
    pose proof (Qfloor_random rnd2 2000 H2 ltac:(lia)) as Hd.
    cbn [handleRequest endpoint]. run_handler. split.
    + apply emitted_app. destruct r; trace_delta.
    + exists (Qfloor (rnd2 * inject_Z 2000) + 500). split; [lia |].
      destruct r; reflexivity.
  - rewrite (regional_process_at _ _ _ _ 1 _ _
               (upper_half_picks_1 rnd1 H1 Hhalf) eq_refl).
    pose proof (Qfloor_random rnd2 1000 H2 ltac:(lia)) as Hd.
    cbn [handleRequest endpoint]. run_handler. split.
    + apply emitted_app. destruct r; trace_delta.
    + exists (Qfloor (rnd2 * inject_Z 1000) + 200). split; [lia |].
      destruct r; reflexivity.
Qed.

Lemma worker_picks_endpoint_by_halves_witness :
  let job := stripped (job_for "India" 3) in
  let w := with_region India [job] in
  let w' := step (RegionalJob India (1 # 2) (0 # 1)) w in
  (proc w = Running /\ random (1 # 2) /\ random (0 # 1) /\
   jobs (getQ (queue_of India) w) = [job] /\ (1 # 2 <= 1 # 2)%Q) /\
  emitted w w' =
    [EvHandle IndiaQ "/api/v2/resource" (backend_req job); EvDone IndiaQ].
Proof.
  intros job w w'.
  assert (Ha : random (1 # 2)) by (split; discriminate || reflexivity).
  assert (Hb : random (0 # 1)) by (split; discriminate || reflexivity).
  assert (Hh : (1 # 2 <= 1 # 2)%Q) by discriminate.
  destruct (worker_picks_endpoint_by_halves India (1 # 2) (0 # 1) w job []
              eq_refl Ha Hb eq_refl) as (_ & Hupper).
  split; [repeat split; (reflexivity || discriminate) |].
  exact (proj1 (Hupper Hh)).
Defined.

(** ** From the request to the regional queue *)

Lemma main_job_unroutable (o : Settle) (w : World) (job : object)
    (rest : list object) :
  jobs (mainQueue w) = job :: rest ->
  routable (get "location" job) = false ->
  main_job o w =
    exec (done MainQ)
      (set_trace
         (trace w ++
          [EvError ("Invalid location: " ++ tmpl (get "location" job))%string])
         w).
Proof.
  intros Hjobs Hroute. unfold routable in Hroute.
  apply orb_false_elim in Hroute as [Hroute Hi].
  apply orb_false_elim in Hroute as [Hu He].
  unfold main_job. rewrite Hjobs.
  unfold mainQueue_process. rewrite Hu, He, Hi. reflexivity.
Qed.

Lemma main_job_routed (r : Region) (w : World) (job : object)
    (rest : list object) :
  jobs (mainQueue w) = job :: rest ->
  get "location" job = VStr (tag r) ->
  main_job Resolved w = routed r job w.
Proof.
  intros Hjobs Hloc. unfold main_job. rewrite Hjobs.
  destruct (tag_routes r _ Hloc) as (Hu & He & Hi).
  unfold mainQueue_process. rewrite Hu, He, Hi. unfold routed.
  destruct w. destruct r; run_handler; world_simpl;
    now rewrite <- !app_assoc.
Qed.

Lemma intake_then_settle (req : Request) (now : Z) (w : World) :
  proc w = Running ->
  http_request req -> ~ missing_field req ->
  run [HttpRequest req now;
       AddSettles (List.length (pendingAdds w)) Resolved] w =
  queued_in_main now req w.
Proof.
  intros Hrun Hreq Hn. unfold run. cbn [fold_left].
  rewrite (intake_accepts now req w Hrun Hreq Hn).
  destruct w as [mq uq eq iq logs pa tm sd tr pr]. cbn in Hrun. subst pr.
  unfold step, queued_in_main, queued, add_settles. world_simpl.
  rewrite nth_error_snoc, remove_nth_snoc. reflexivity.
Qed.

Lemma intake_payload_location (now : Z) (req : Request) :
  get "location" (intake_payload now req) = get "location" (req_headers req).
Proof. reflexivity. Qed.

(** X4.  A well-formed request for one of the three regions, arriving
    while the main queue is empty and no add is pending, is answered 202;
    once its add to the main queue and then the dispatcher's add resolve,
    the queue of its region holds, at its tail, a job with the request's
    method and url and the clock reading taken at intake as request id,
    the other regional queues are as before, the main queue is empty
    again, and the trace log has gained the main-queue entry and the
    regional entry for that request, in this order. *)
Theorem request_reaches_its_region
    (r : Region) (req : Request) (now : Z) (w : World) :
  proc w = Running ->
  http_request req -> ~ missing_field req ->
  get "location" (req_headers req) = VStr (tag r) ->
  pendingAdds w = [] ->
  jobs (mainQueue w) = [] ->
  let w' :=
    run [HttpRequest req now; AddSettles 0 Resolved; MainJob Resolved] w in
  filter is_respond (emitted w w') =
    [EvRespond 202 [("message", VStr "Request queued for processing")]] /\
  jobs (getQ (queue_of r) w') =
    jobs (getQ (queue_of r) w) ++
    [[("method", req_method req); ("url", req_url req);
      ("requestId", VNum now)]] /\
  (forall r', r' <> r -> getQ (queue_of r') w' = getQ (queue_of r') w) /\
  jobs (mainQueue w') = [] /\
  queueLogs w' =
    queueLogs w ++
    [mkLog "mainQueue" (intake_payload now req);
     mkLog (queue_name r) (intake_payload now req)] /\
  proc w' = Running.
Proof.
  intros Hrun Hreq Hn Hloc Hpa Hmain w'. subst w'.
  change [HttpRequest req now; AddSettles 0 Resolved; MainJob Resolved]
    with ([HttpRequest req now; AddSettles 0 Resolved] ++ [MainJob Resolved]).
  rewrite run_app.
  pose proof (intake_then_settle req now w Hrun Hreq Hn) as Hw2.
  rewrite Hpa in Hw2. cbn [List.length] in Hw2. rewrite Hw2.
  set (w2 := queued_in_main now req w).
  assert (Hrun2 : proc w2 = Running) by exact Hrun.
  assert (Hjobs2 : jobs (mainQueue w2) = [intake_payload now req]).
  { unfold w2, queued_in_main. world_simpl. now rewrite Hmain. }
  assert (Hloc2 : get "location" (intake_payload now req) = VStr (tag r)).
  { now rewrite intake_payload_location. }
  unfold run. cbn [fold_left]. unfold step. rewrite Hrun2.
  rewrite (main_job_routed r w2 _ [] Hjobs2 Hloc2).
  unfold routed, w2, queued_in_main, queued. clear Hloc Hloc2 Hw2.
  destruct w as [mq uq eq iq logs pa tm sd tr pr]. world_simpl. subst.
  destruct r; run_handler; world_simpl.
  all: unfold emitted; world_simpl; rewrite <- !app_assoc.
  all: rewrite skipn_app, skipn_all, Nat.sub_diag.
  all: cbn [skipn app filter is_respond].
  all: rewrite Hmain.
  all: repeat split.
  all: intros r' Hr'; destruct r'; (reflexivity || congruence).
Qed.

Lemma request_reaches_its_region_witness :
  let req := request_from "Europe" "/orders" in
  let w' :=
    run [HttpRequest req 1700000000000; AddSettles 0 Resolved;
         MainJob Resolved] init in
  (proc init = Running /\ http_request req /\ ~ missing_field req /\
   get "location" (req_headers req) = VStr (tag Europe) /\
   pendingAdds init = [] /\ jobs (mainQueue init) = []) /\
  jobs (getQ (queue_of Europe) w') =
    jobs (getQ (queue_of Europe) init) ++
    [[("method", req_method req); ("url", req_url req);
      ("requestId", VNum 1700000000000)]].
Proof.
  intros req w'.
  assert (Hr : http_request req) by (repeat split; right; eexists; reflexivity).
  assert (Hn : ~ missing_field req).
  { intros [[H | H] | [[H | H] | [H | H]]]; discriminate H. }
  destruct (request_reaches_its_region Europe req 1700000000000 init
              eq_refl Hr Hn eq_refl eq_refl eq_refl) as (_ & Hq & _).
  split; [split; [reflexivity | tauto] |].
  exact Hq.
Defined.

(** X5.  The validator does not look at which region is named: a request
    whose location is any non-empty string other than USA, Europe and
    India is answered 202 like a routable one.  Once its add to the main
    queue has resolved and the dispatcher has taken it, nothing has
    reached a regional queue, the main queue is empty again, the only
    trace log entry it has is the main-queue one, and the dispatcher has
    written [Invalid location: <location>] to the error console. *)
Theorem unknown_region_is_accepted_then_dropped
    (location : string) (req : Request) (now : Z) (o : Settle) (w : World) :
  proc w = Running ->
  http_request req -> ~ missing_field req ->
  get "location" (req_headers req) = VStr location ->
  routable (VStr location) = false ->
  pendingAdds w = [] ->
  jobs (mainQueue w) = [] ->
  let w' := run [HttpRequest req now; AddSettles 0 Resolved; MainJob o] w in
  filter is_respond (emitted w w') =
    [EvRespond 202 [("message", VStr "Request queued for processing")]] /\
  filter is_console_error (emitted w w') =
    [EvError ("Invalid location: " ++ location)%string] /\
  (forall r, getQ (queue_of r) w' = getQ (queue_of r) w) /\
  jobs (mainQueue w') = [] /\
  queueLogs w' = queueLogs w ++ [mkLog "mainQueue" (intake_payload now req)] /\
  proc w' = Running.
Proof.
  intros Hrun Hreq Hn Hloc Hroute Hpa Hmain w'. subst w'.
  change [HttpRequest req now; AddSettles 0 Resolved; MainJob o]
    with ([HttpRequest req now; AddSettles 0 Resolved] ++ [MainJob o]).
  rewrite run_app.
  pose proof (intake_then_settle req now w Hrun Hreq Hn) as Hw2.
  rewrite Hpa in Hw2. cbn [List.length] in Hw2. rewrite Hw2.
  set (w2 := queued_in_main now req w).
  assert (Hrun2 : proc w2 = Running) by exact Hrun.
  assert (Hjobs2 : jobs (mainQueue w2) = [intake_payload now req]).
  { unfold w2, queued_in_main. world_simpl. now rewrite Hmain. }
  assert (Hloc2 : get "location" (intake_payload now req) = VStr location).
  { now rewrite intake_payload_location. }
  assert (Hroute2 : routable (get "location" (intake_payload now req)) = false).
  { now rewrite Hloc2. }
  unfold run. cbn [fold_left]. unfold step. rewrite Hrun2.
  rewrite (main_job_unroutable o w2 _ [] Hjobs2 Hroute2).
  rewrite Hloc2. cbn [tmpl].
  unfold w2, queued_in_main, queued. run_handler.
  destruct w as [mq uq eq iq logs pa tm sd tr pr]. world_simpl. subst.
  unfold emitted. world_simpl. rewrite <- !app_assoc.
  rewrite skipn_app, skipn_all, Nat.sub_diag.
  cbn [skipn app filter is_respond is_console_error].
  repeat split.
  - intros r; destruct r; reflexivity.
  - now rewrite Hmain.
Qed.

Lemma unknown_region_is_accepted_then_dropped_witness :
  let req := request_from "Mars" "/orders" in
  let w' :=
    run [HttpRequest req 1700000000000; AddSettles 0 Resolved;
         MainJob Resolved] init in
  (proc init = Running /\ http_request req /\ ~ missing_field req /\
   get "location" (req_headers req) = VStr "Mars" /\
   routable (VStr "Mars") = false /\
   pendingAdds init = [] /\ jobs (mainQueue init) = []) /\
  filter is_console_error (emitted init w') =
    [EvError ("Invalid location: " ++ "Mars")%string].
Proof.
  intros req w'.
  assert (Hr : http_request req) by (repeat split; right; eexists; reflexivity).
  assert (Hn : ~ missing_field req).
  { intros [[H | H] | [[H | H] | [H | H]]]; discriminate H. }
  destruct (unknown_region_is_accepted_then_dropped "Mars" req 1700000000000
              Resolved init eq_refl Hr Hn eq_refl eq_refl eq_refl eq_refl)
    as (_ & Herr & _).
  split; [split; [reflexivity | tauto] |].
  exact Herr.
Defined.



(** ** The shape of a step *)

Lemma is_str_eq (v : value) (s : string) : is_str v s = true -> v = VStr s.
Proof.
  destruct v; cbn; try discriminate. intros H.
  apply String.eqb_eq in H. now subst.
Qed.

Lemma quiet_logs {A : Type} (f : A -> string) (l : list A) :
  Forall quiet (map (fun x => EvLog (f x)) l).
Proof. induction l; constructor; [exact I | assumption]. Qed.

Ltac shape_eq :=
  match goal with
  | w : World |- _ =>
      destruct w; run_handler; world_simpl; rewrite <- ?app_assoc;
      rewrite ?app_nil_r; reflexivity
  end.

Ltac shape_still w :=
  apply (shape_quiet _ w _ [] (shutdowns w) (proc w));
  [constructor | left; reflexivity | shape_eq].

Lemma app_shape (a : Action) (now : Z) (req : Request) (w : World) :
  StepShape a w (exec (app now req) w).
Proof.
  unfold exec, app, validateRequest.
  destruct (falsy (req_method req)) eqn:Hm;
    [| destruct (falsy (req_url req)) eqn:Hu;
       [| destruct (falsy (get "location" (req_headers req))) eqn:Hl]];
    cbn [orb].
  4: { apply (shape_queued _ _ _ req now Hm Hu Hl).
       unfold manageQueues, queued, intake_payload. shape_eq. }
  all: apply (shape_quiet _ w _
                [EvRespond 400 [("error", VStr "Invalid request")]]
                (shutdowns w) (proc w));
    [repeat constructor | left; reflexivity | shape_eq].
Qed.

Lemma add_settles_shape (a : Action) (i : nat) (o : Settle) (w : World) :
  StepShape a w (add_settles i o w).
Proof.
  unfold add_settles.
  destruct (nth_error (pendingAdds w) i) as [[q payload] |] eqn:Hi;
    [| shape_still w].
  destruct o as [| e].
  - apply (shape_add_resolved _ _ _ i q payload Hi).
    destruct w. run_handler. destruct q; reflexivity.
  - apply (shape_add_rejected _ _ _ i q payload e Hi).
    destruct w. reflexivity.
Qed.

Lemma main_job_route_failed (r : Region) (e : error) (w : World)
    (job : object) (rest : list object) :
  jobs (mainQueue w) = job :: rest ->
  get "location" job = VStr (tag r) ->
  main_job (Rejected e) w =
    exec (done MainQ)
      (set_trace
         (trace w ++
          [EvAdd (queue_of r) (stripped job);
           EvAddSettled (queue_of r) (stripped job) (Rejected e);
           EvErrorWith
             ("Error processing job " ++ tmpl (get "requestId" job) ++ ":")%string
             e])
         w).
Proof.
  intros Hjobs Hloc. unfold main_job. rewrite Hjobs.
  destruct (tag_routes r _ Hloc) as (Hu & He & Hi).
  unfold mainQueue_process. rewrite Hu, He, Hi.
  destruct w. destruct r; run_handler; world_simpl;
    now rewrite <- !app_assoc.
Qed.

Lemma location_cases (v : value) :
  (exists r, v = VStr (tag r)) \/ routable v = false.
Proof.
  unfold routable.
  destruct (is_str v "USA") eqn:Hu;
    [left; exists USA; now apply is_str_eq |].
  destruct (is_str v "Europe") eqn:He;
    [left; exists Europe; now apply is_str_eq |].
  destruct (is_str v "India") eqn:Hi;
    [left; exists India; now apply is_str_eq |].
  now right.
Qed.

Lemma main_job_shape (a : Action) (o : Settle) (w : World) :
  StepShape a w (main_job o w).
Proof.
  destruct (jobs (mainQueue w)) as [| job rest] eqn:Hjobs.
  - unfold main_job. rewrite Hjobs. shape_still w.
  - destruct (location_cases (get "location" job)) as [[r Hloc] | Hroute].
    + destruct o as [| e].
      * rewrite (main_job_routed r w job rest Hjobs Hloc).
        now apply (shape_routed _ _ _ r job rest).
      * rewrite (main_job_route_failed r e w job rest Hjobs Hloc).
        now apply (shape_route_failed _ _ _ r job rest e).
    + rewrite (main_job_unroutable o w job rest Hjobs Hroute).
      now apply (shape_unroutable _ _ _ job rest).
Qed.

Lemma regional_job_shape (a : Action) (r : Region) (rnd1 rnd2 : Q) (w : World) :
  StepShape a w (regional_job r rnd1 rnd2 w).
Proof.
  destruct (jobs (getQ (queue_of r) w)) as [| job rest] eqn:Hjobs.
  - unfold regional_job. rewrite Hjobs. shape_still w.
  - rewrite (regional_job_unfold r rnd1 rnd2 w job rest Hjobs).
    unfold regional_process, index.
    destruct (_ <? 0).
    + eapply (shape_work_failed _ _ _ r job rest); [exact Hjobs |].
      destruct w. destruct r; run_handler; world_simpl;
        now rewrite <- ?app_assoc.
    + destruct (Z.to_nat _) as [| [| n]]; cbn [nth_error mockRESTAPIs].
      * eapply (shape_worked _ _ _ r job rest); [exact Hjobs | |].
        2: { destruct w. destruct r; run_handler;
             cbn [handleRequest endpoint]; run_handler; reflexivity. }
        reflexivity.
      * eapply (shape_worked _ _ _ r job rest); [exact Hjobs | |].
        2: { destruct w. destruct r; run_handler;
             cbn [handleRequest endpoint]; run_handler; reflexivity. }
        reflexivity.
      * rewrite nth_error_nil.
        eapply (shape_work_failed _ _ _ r job rest); [exact Hjobs |].
        destruct w. destruct r; run_handler; world_simpl;
          now rewrite <- ?app_assoc.
Qed.

Lemma timer_fires_shape (i : nat) (w : World) :
  StepShape (TimerFires i) w (timer_fires i w).
Proof.
  unfold timer_fires.
  destruct (nth_error (timers w) i) as [t |] eqn:Hi; [| shape_still w].
  unfold run_callback, call_method.
  destruct (get "status" (cb_res t)) as [| s | n | []] eqn:Hs; run_handler;
    try (eapply (shape_timer_crashed _ _ _ i t); [reflexivity | exact Hi |];
         reflexivity).
  destruct (get "json" (cb_res t)) as [| s | n | []] eqn:Hj; run_handler;
    try (eapply (shape_timer_crashed _ _ _ i t); [reflexivity | exact Hi |];
         reflexivity).
  all: apply (shape_timer_answered _ _ _ i t Hi);
    [intros Heq; rewrite Heq in Hs; discriminate Hs | shape_eq].
Qed.

Lemma reporter_shape (a : Action) (w : World) :
  StepShape a w (exec reporter w).
Proof.
  unfold exec. rewrite reporter_effects. cbn [snd].
  eapply (shape_quiet _ w _ _ (shutdowns w) (proc w));
    [| left; reflexivity | destruct w; reflexivity].
  apply Forall_app. split; [repeat constructor |].
  apply Forall_app. split;
    [destruct (Nat.eqb _ 0); repeat constructor |].
  apply Forall_app. split; [repeat constructor | apply quiet_logs].
Qed.

Lemma drain_settles_shape
    (a : Action) (k : nat) (q : QueueId) (o : Settle) (w : World) :
  StepShape a w (exec (drain_settles k q o) w).
Proof.
  unfold drain_settles. run_handler.
  destruct (nth_error (shutdowns w) k) as [resolved |]; [| shape_still w].
  destruct (existsb (QueueId_eqb q) resolved); [shape_still w |].
  destruct o as [| e].
  - destruct (all_in (resolved ++ [q])).
    + apply (shape_quiet _ w _
               [EvLog (name (getQ q w) ++ " queue drained")%string;
                EvLog "All queues drained. Shutting down..."; EvExit 0]
               (replace_nth k (resolved ++ [q]) (shutdowns w)) (Exited 0));
        [repeat constructor | right; now exists 0 | shape_eq].
    + apply (shape_quiet _ w _
               [EvLog (name (getQ q w) ++ " queue drained")%string]
               (replace_nth k (resolved ++ [q]) (shutdowns w)) (proc w));
        [repeat constructor | left; reflexivity | shape_eq].
  - apply (shape_quiet _ w _
             [EvErrorWith "Error during graceful shutdown:" e; EvExit 1]
             (shutdowns w) (Exited 1));
      [repeat constructor | right; now exists 1 | shape_eq].
Qed.

Lemma step_shape (a : Action) (w : World) :
  proc w = Running -> StepShape a w (step a w).
Proof.
  intros Hrun. unfold step. rewrite Hrun.
  destruct a as [req now | i o | o | r rnd1 rnd2 | i | | s | k q o].
  - apply app_shape.
  - apply add_settles_shape.
  - apply main_job_shape.
  - apply regional_job_shape.
  - apply timer_fires_shape.
  - apply reporter_shape.
  - rewrite gracefulShutdown_effects. unfold draining.
    apply (shape_quiet _ w _
             [EvLog "Gracefully shutting down the server..."; EvDrain MainQ;
              EvDrain UsaQ; EvDrain EuropeQ; EvDrain IndiaQ]
             (shutdowns w ++ [[]]) (proc w));
      [repeat constructor | left; reflexivity | destruct w; reflexivity].
  - apply drain_settles_shape.
Qed.

(** ** What the queues hold *)

Lemma Forall_tl {A : Type} (P : A -> Prop) (l : list A) :
  Forall P l -> Forall P (tl l).
Proof. intros H. destruct H; [constructor | assumption]. Qed.

Lemma Forall_remove_nth {A : Type} (P : A -> Prop) (n : nat) (l : list A) :
  Forall P l -> Forall P (remove_nth n l).
Proof.
  intros H. revert n. induction H as [| x l Hx Hl IH]; intros n.
  - destruct n; constructor.
  - destruct n; cbn; [assumption | constructor; auto].
Qed.

Lemma Forall_nth_error {A : Type} (P : A -> Prop) (n : nat) (l : list A) (x : A) :
  Forall P l -> nth_error l n = Some x -> P x.
Proof.
  intros H Hn. rewrite Forall_forall in H. apply H.
  now apply nth_error_In with n.
Qed.

Lemma Forall_snoc {A : Type} (P : A -> Prop) (l : list A) (x : A) :
  Forall P l -> P x -> Forall P (l ++ [x]).
Proof.
  intros Hl Hx. apply Forall_app. split; [assumption | now constructor].
Qed.

Lemma accepted_then_dispatched (job : object) :
  accepted_job job -> dispatched_job (stripped job).
Proof.
  intros (method & url & location & now & -> & Hm & Hu & _).
  exists method, url, now. repeat split; assumption.
Qed.

Lemma pipeline_inv_init : PipelineInv init.
Proof.
  constructor; try constructor. intros r; destruct r; constructor.
Qed.

Ltac regions_same Hr :=
  let r0 := fresh "r" in
  let Hold := fresh "Hold" in
  intros r0; pose proof (Hr r0) as Hold; destruct r0; exact Hold.

Lemma pipeline_inv_shape (a : Action) (w w' : World) :
  PipelineInv w -> StepShape a w w' -> PipelineInv w'.
Proof.
  intros [Hp Hm Hr Ht] Hshape.
  destruct Hshape as
    [ l sd p _ _ ->
    | req now Hfm Hfu Hfl ->
    | i q payload Hi ->
    | i q payload e Hi ->
    | r job rest Hjobs Hloc ->
    | r job rest e Hjobs Hloc ->
    | job rest Hjobs Hroute ->
    | r job rest ep t Hjobs Hstub ->
    | r job rest e Hjobs ->
    | i t e _ Hi ->
    | i t Hi _ -> ].
  - constructor; [exact Hp | exact Hm | | exact Ht].
    regions_same Hr.
  - constructor; [| exact Hm | | exact Ht].
    + apply Forall_snoc; [exact Hp |]. split; [reflexivity |].
      now exists (req_method req), (req_url req),
        (get "location" (req_headers req)), now.
    + regions_same Hr.
  - destruct (Forall_nth_error _ _ _ _ Hp Hi) as [Hq Hacc].
    cbn [fst snd] in Hq, Hacc. subst q.
    constructor; [| | | exact Ht].
    + now apply Forall_remove_nth.
    + now apply Forall_snoc.
    + regions_same Hr.
  - constructor; [| exact Hm | | exact Ht].
    + now apply Forall_remove_nth.
    + regions_same Hr.
  - assert (Hjob : accepted_job job).
    { rewrite Hjobs in Hm. now inversion Hm. }
    pose proof (accepted_then_dispatched job Hjob) as Hnew.
    unfold routed. run_handler.
    constructor; [destruct r; exact Hp | | | destruct r; exact Ht].
    + destruct r; world_simpl; now apply Forall_tl.
    + intros r'. pose proof (Hr r') as Hold.
      destruct r, r'; world_simpl;
        first [exact Hold | now apply Forall_snoc].
  - run_handler. constructor; [exact Hp | | | exact Ht].
    + world_simpl. now apply Forall_tl.
    + regions_same Hr.
  - run_handler. constructor; [exact Hp | | | exact Ht].
    + world_simpl. now apply Forall_tl.
    + regions_same Hr.
  - run_handler.
    constructor; [destruct r; exact Hp | destruct r; exact Hm | |].
    + intros r'. pose proof (Hr r') as Hold.
      destruct r, r'; world_simpl;
        first [exact Hold | now apply Forall_tl].
    + destruct r; world_simpl; now apply Forall_snoc.
  - run_handler.
    constructor;
      [destruct r; exact Hp | destruct r; exact Hm | | destruct r; exact Ht].
    intros r'. pose proof (Hr r') as Hold.
    destruct r, r'; world_simpl;
      first [exact Hold | now apply Forall_tl].
  - unfold uncaught. constructor; [exact Hp | exact Hm | |].
    + regions_same Hr.
    + world_simpl. now apply Forall_remove_nth.
  - constructor; [exact Hp | exact Hm | |].
    + regions_same Hr.
    + world_simpl. now apply Forall_remove_nth.
Qed.

Lemma pipeline_inv_step (a : Action) (w : World) :
  PipelineInv w -> PipelineInv (step a w).
Proof.
  intros Hinv. destruct (proc w) eqn:Hrun.
  - apply (pipeline_inv_shape a w); [exact Hinv | now apply step_shape].
  - rewrite step_not_running by (rewrite Hrun; discriminate). exact Hinv.
  - rewrite step_not_running by (rewrite Hrun; discriminate). exact Hinv.
Qed.

Lemma pipeline_inv_run (acts : list Action) (w : World) :
  PipelineInv w -> PipelineInv (run acts w).
Proof.
  revert w. induction acts as [| a acts IH]; intros w Hw; [exact Hw |].
  cbn. apply IH. now apply pipeline_inv_step.
Qed.

(** ** What the trace log holds *)

Lemma quiet_enqueues_nothing (q : QueueId) (l : list Event) :
  Forall quiet l -> enqueued q l = [].
Proof.
  induction 1 as [| e l He _ IH]; [reflexivity |].
  unfold enqueued in *. cbn [flat_map]. rewrite IH.
  destruct e; (reflexivity || destruct He).
Qed.

Lemma quiet_adds_nothing (q : QueueId) (l : list Event) :
  Forall quiet l -> added q l = [].
Proof.
  induction 1 as [| e l He _ IH]; [reflexivity |].
  unfold added in *. cbn [flat_map]. rewrite IH.
  destruct e; (reflexivity || destruct He).
Qed.

Lemma enqueued_app (q : QueueId) (l1 l2 : list Event) :
  enqueued q (l1 ++ l2) = enqueued q l1 ++ enqueued q l2.
Proof. apply flat_map_app. Qed.

Lemma added_app (q : QueueId) (l1 l2 : list Event) :
  added q (l1 ++ l2) = added q l1 ++ added q l2.
Proof. apply flat_map_app. Qed.

Lemma log_inv_init : LogInv init.
Proof.
  constructor; try reflexivity; try constructor.
Qed.

(** The invariant is kept when the trace and the trace log each gain a
    suffix and the two suffixes correspond. *)

Lemma log_inv_grow (w w' : World) (l : list Event) (entries : list LogEntry) :
  LogInv w ->
  trace w' = trace w ++ l ->
  queueLogs w' = queueLogs w ++ entries ->
  map request (filter (named "mainQueue") entries) = added MainQ l ->
  (forall r,
     map (fun e => stripped (request e))
       (filter (named (queue_name r)) entries) =
     enqueued (queue_of r) l) ->
  (forall r,
     Forall (fun e => get "location" (request e) = VStr (tag r))
       (filter (named (queue_name r)) entries)) ->
  Forall (fun e => queue e = "mainQueue" \/ exists r, queue e = queue_name r)
    entries ->
  LogInv w'.
Proof.
  intros [Hmain Hregion Htag Hnames] Htr Hlogs Hm Hr Ht Hn.
  constructor; rewrite ?Htr, ?Hlogs.
  - now rewrite filter_app, map_app, added_app, Hmain, Hm.
  - intros r.
    now rewrite filter_app, map_app, enqueued_app, Hregion, Hr.
  - intros r. rewrite filter_app. apply Forall_app. auto.
  - apply Forall_app. auto.
Qed.

Ltac field_eq :=
  unfold routed, queued, uncaught; run_handler; world_simpl;
  rewrite <- ?app_assoc; rewrite ?app_nil_r; reflexivity.

Ltac no_entries :=
  let r0 := fresh "r" in
  first
    [ reflexivity
    | intros r0; destruct r0; reflexivity
    | intros r0; destruct r0; constructor
    | constructor ].

Lemma log_inv_shape (a : Action) (w w' : World) :
  PipelineInv w -> LogInv w -> StepShape a w w' -> LogInv w'.
Proof.
  intros [Hp _ _ _] Hlog Hshape.
  destruct Hshape as
    [ l sd p Hquiet _ ->
    | req now Hfm Hfu Hfl ->
    | i q payload Hi ->
    | i q payload e Hi ->
    | r job rest Hjobs Hloc ->
    | r job rest e Hjobs Hloc ->
    | job rest Hjobs Hroute ->
    | r job rest ep t Hjobs Hstub ->
    | r job rest e Hjobs ->
    | i t e _ Hi ->
    | i t Hi _ -> ].
  - apply (log_inv_grow w _ l [] Hlog); try field_eq; try no_entries.
    + symmetry. now apply quiet_adds_nothing.
    + intros r. symmetry. now apply quiet_enqueues_nothing.
  - apply (log_inv_grow w _
             [EvLog ("Incoming " ++ tmpl (req_method req) ++ " request ("
                     ++ tmpl (VNum now) ++ "): " ++ tmpl (req_url req))%string;
              EvLog ("Location: "
                     ++ tmpl (get "location" (req_headers req)))%string;
              EvAdd MainQ (intake_payload now req);
              EvRespond 202 [("message", VStr "Request queued for processing")]]
             [mkLog "mainQueue" (intake_payload now req)] Hlog);
      try field_eq; try no_entries.
    all: repeat constructor.
  - destruct (Forall_nth_error _ _ _ _ Hp Hi) as [Hq _].
    cbn [fst] in Hq. subst q.
    apply (log_inv_grow w _ [EvAddSettled MainQ payload Resolved] [] Hlog);
      try field_eq; try no_entries.
  - apply (log_inv_grow w _ [EvAddSettled q payload (Rejected e)] [] Hlog);
      try field_eq; try no_entries.
  - apply (log_inv_grow w _
             [EvAdd (queue_of r) (stripped job);
              EvAddSettled (queue_of r) (stripped job) Resolved; EvDone MainQ]
             [mkLog (queue_name r) (traced job)] Hlog).
    + destruct r; field_eq.
    + destruct r; field_eq.
    + destruct r; reflexivity.
    + intros r0. destruct r, r0; reflexivity.
    + intros r0. destruct r, r0; repeat constructor; exact Hloc.
    + constructor; [right; now exists r | constructor].
  - apply (log_inv_grow w _
             [EvAdd (queue_of r) (stripped job);
              EvAddSettled (queue_of r) (stripped job) (Rejected e);
              EvErrorWith
                ("Error processing job " ++ tmpl (get "requestId" job)
                 ++ ":")%string e;
              EvDone MainQ] [] Hlog);
      try field_eq; try no_entries.
    destruct r; reflexivity.
  - apply (log_inv_grow w _
             [EvError ("Invalid location: "
                       ++ tmpl (get "location" job))%string;
              EvDone MainQ] [] Hlog);
      try field_eq; try no_entries.
  - apply (log_inv_grow w _
             [EvHandle (queue_of r) ep (backend_req job); EvDone (queue_of r)]
             [] Hlog);
      try (destruct r; field_eq); try no_entries.
  - apply (log_inv_grow w _
             [EvErrorWith
                ("Error processing job " ++ tmpl (get "requestId" job)
                 ++ ":")%string e;
              EvDone (queue_of r)] [] Hlog);
      try (destruct r; field_eq); try no_entries.
  - apply (log_inv_grow w _ [EvUncaught e] [] Hlog);
      try field_eq; try no_entries.
  - apply (log_inv_grow w _ [EvRespond (cb_status t) (cb_body t)] [] Hlog);
      try field_eq; try no_entries.
Qed.

Lemma pipeline_log_inv_run (acts : list Action) (w : World) :
  PipelineInv w -> LogInv w ->
  PipelineInv (run acts w) /\ LogInv (run acts w).
Proof.
  revert w. induction acts as [| a acts IH]; intros w Hp Hl; [now split |].
  cbn. apply IH; [now apply pipeline_inv_step |].
  destruct (proc w) eqn:Hrun.
  - apply (log_inv_shape a w); [exact Hp | exact Hl | now apply step_shape].
  - rewrite step_not_running by (rewrite Hrun; discriminate). exact Hl.
  - rewrite step_not_running by (rewrite Hrun; discriminate). exact Hl.
Qed.

Lemma shape_logs (a : Action) (w w' : World) :
  StepShape a w w' -> exists entries, queueLogs w' = queueLogs w ++ entries.
Proof.
  intros Hshape.
  destruct Hshape as
    [ l sd p _ _ ->
    | req now _ _ _ ->
    | i q payload _ ->
    | i q payload e _ ->
    | r job rest _ _ ->
    | r job rest e _ _ ->
    | job rest _ _ ->
    | r job rest ep t _ _ ->
    | r job rest e _ ->
    | i t e _ _ ->
    | i t _ _ -> ].
  2: { exists [mkLog "mainQueue" (intake_payload now req)]. reflexivity. }
  4: { exists [mkLog (queue_name r) (traced job)]. destruct r; reflexivity. }
  all: exists []; rewrite app_nil_r.
  all: try reflexivity.
  all: try (destruct q; reflexivity).
  all: destruct r; reflexivity.
Qed.



(** X8.  In every state a run reaches from the start, every job in a
    regional queue has exactly the properties method, url and requestId,
    the first two non-empty and the id a number; it has no location. *)
Theorem regional_jobs_carry_no_location (acts : list Action) (r : Region)
    (job : object) :
  In job (jobs (getQ (queue_of r) (run acts init))) ->
  dispatched_job job /\ has "location" job = false /\
  get "location" job = VUndefined.
Proof.
  intros Hin.
  destruct (pipeline_inv_run acts init pipeline_inv_init) as [_ _ Hr _].
  specialize (Hr r). rewrite Forall_forall in Hr.
  pose proof (Hr job Hin) as Hjob. split; [exact Hjob |].
  destruct Hjob as (method & url & now & -> & _). split; reflexivity.
Qed.

Lemma regional_jobs_carry_no_location_witness :
  let acts :=
    [HttpRequest (request_from "India" "/orders") 1700000000000;
     AddSettles 0 Resolved; MainJob Resolved] in
  let job :=
    [("method", VStr "POST"); ("url", VStr "/orders");
     ("requestId", VNum 1700000000000)] in
  In job (jobs (getQ (queue_of India) (run acts init))) /\
  has "location" job = false.
Proof.
  intros acts job.
  assert (Hin : In job (jobs (getQ (queue_of India) (run acts init))))
    by (left; reflexivity).
  split; [exact Hin |].
  exact (proj1 (proj2 (regional_jobs_carry_no_location acts India job Hin))).
Defined.

(** X9.  In every state a run reaches from the start, every pending timer
    holds the workers' stub response object: whichever of them fires
    first, its callback throws the [TypeError] and the process ends on
    it. *)
Theorem every_pending_timer_is_fatal (acts : list Action) (i : nat) :
  let w := run acts init in
  proc w = Running ->
  (i < List.length (timers w))%nat ->
  proc (step (TimerFires i) w) =
    Crashed (TypeError "res.status is not a function").
Proof.
  intros w Hrun Hi.
  destruct (pipeline_inv_run acts init pipeline_inv_init) as [_ _ _ Ht].
  fold w in Ht.
  destruct (nth_error (timers w) i) as [t |] eqn:Hnth.
  - pose proof (Forall_nth_error _ _ _ _ Ht Hnth) as Hstub.
    unfold step. rewrite Hrun. unfold timer_fires. rewrite Hnth.
    now rewrite (run_callback_stub_throws t _ Hstub).
  - apply nth_error_None in Hnth. exfalso. lia.
Qed.

Lemma every_pending_timer_is_fatal_witness :
  let acts :=
    [HttpRequest (request_from "USA" "/a") 1; AddSettles 0 Resolved;
     MainJob Resolved; RegionalJob USA (0 # 1) (0 # 1);
     HttpRequest (request_from "USA" "/b") 2; AddSettles 0 Resolved;
     MainJob Resolved; RegionalJob USA (3 # 4) (1 # 2)] in
  (proc (run acts init) = Running /\
   (1 < List.length (timers (run acts init)))%nat) /\
  proc (step (TimerFires 1) (run acts init)) =
    Crashed (TypeError "res.status is not a function").
Proof.
  intros acts.
  assert (Hrun : proc (run acts init) = Running) by reflexivity.
  assert (Hlen : (1 < List.length (timers (run acts init)))%nat)
    by (apply Nat.ltb_lt; vm_compute; reflexivity).
  split; [split; assumption |].
  exact (every_pending_timer_is_fatal acts 1 Hrun Hlen).
Defined.

(** X10.  In every state a run reaches from the start and for each
    region, the trace log entries that name the region's queue are, in
    order and without their location, exactly the jobs whose add to that
    queue resolved, and each of these entries has the location that names
    the region. *)
Theorem trace_log_mirrors_regional_queues (acts : list Action) (r : Region) :
  let w := run acts init in
  map (fun e => stripped (request e))
    (filter (named (queue_name r)) (queueLogs w)) =
  enqueued (queue_of r) (trace w) /\
  (forall e,
     In e (filter (named (queue_name r)) (queueLogs w)) ->
     get "location" (request e) = VStr (tag r)).
Proof.
  intros w.
  destruct (pipeline_log_inv_run acts init pipeline_inv_init log_inv_init)
    as [_ [_ Hregion Htag _]].
  fold w in Hregion, Htag. split; [apply Hregion |].
  apply Forall_forall. apply Htag.
Qed.

(** X11.  In every state a run reaches from the start, the trace log
    entries that name the main queue are, in order, exactly the payloads
    the intake called [add] with, one per accepted request whether or not
    that add has resolved, and every entry names the main queue or one of
    the three regional queues. *)
Theorem trace_log_main_entries_are_intake_adds (acts : list Action) :
  let w := run acts init in
  map request (filter (named "mainQueue") (queueLogs w)) =
  added MainQ (trace w) /\
  (forall e,
     In e (queueLogs w) ->
     queue e = "mainQueue" \/ exists r, queue e = queue_name r).
Proof.
  intros w.
  destruct (pipeline_log_inv_run acts init pipeline_inv_init log_inv_init)
    as [_ [Hmain _ _ Hnames]].
  fold w in Hmain, Hnames. split; [exact Hmain |].
  apply Forall_forall. exact Hnames.
Qed.

(** X12.  No step removes or rewrites a trace log entry: after any run
    from any state, the trace log is the one before with entries added at
    its end. *)
Theorem trace_log_only_grows (acts : list Action) (w : World) :
  exists entries, queueLogs (run acts w) = queueLogs w ++ entries.
Proof.
  revert w. induction acts as [| a acts IH]; intros w.
  - exists []. cbn. now rewrite app_nil_r.
  - cbn. destruct (IH (step a w)) as [later Hlater].
    assert (Hstep : exists entries, queueLogs (step a w) = queueLogs w ++ entries).
    { destruct (proc w) eqn:Hrun.
      - apply (shape_logs a). now apply step_shape.
      - exists []. rewrite step_not_running by (rewrite Hrun; discriminate).
        now rewrite app_nil_r.
      - exists []. rewrite step_not_running by (rewrite Hrun; discriminate).
        now rewrite app_nil_r. }
    destruct Hstep as [first Hfirst].
    exists (first ++ later). unfold run in Hlater.
    now rewrite Hlater, Hfirst, app_assoc.
Qed.



(** ** Calls of [done] *)





(** ** Signals and ticks *)

(** X15.  A second termination signal does not force the exit: it runs
    [gracefulShutdown] again, which calls [drain] on the four queues once
    more and waits for these four as well.  After two signals the process
    still runs, two shutdowns are pending with no drain resolved, [drain]
    has been called eight times and no queue has changed. *)
Theorem second_signal_starts_second_shutdown
    (s1 s2 : Signal) (w : World) :
  proc w = Running ->
  let w' := run [SignalArrives s1; SignalArrives s2] w in
  proc w' = Running /\
  shutdowns w' = shutdowns w ++ [[]; []] /\
  filter is_drain (emitted w w') =
    [EvDrain MainQ; EvDrain UsaQ; EvDrain EuropeQ; EvDrain IndiaQ;
     EvDrain MainQ; EvDrain UsaQ; EvDrain EuropeQ; EvDrain IndiaQ] /\
  (forall q, getQ q w' = getQ q w).
Proof.
  intros Hrun w'. subst w'. unfold run. cbn [fold_left].
  rewrite (signal_starts_drains s1 w Hrun).
  rewrite (signal_starts_drains s2 (draining w) Hrun).
  unfold draining. world_simpl. unfold emitted. world_simpl.
  rewrite <- !app_assoc. rewrite skipn_app, skipn_all, Nat.sub_diag.
  repeat split; first [exact Hrun | intros q; destruct q; reflexivity].
Qed.

Lemma second_signal_starts_second_shutdown_witness :
  let w' := run [SignalArrives SIGINT; SignalArrives SIGINT] init in
  proc init = Running /\
  proc w' = Running /\
  shutdowns w' = shutdowns init ++ [[]; []].
Proof.
  intros w'.
  destruct (second_signal_starts_second_shutdown SIGINT SIGINT init eq_refl)
    as (Hrun & Hsd & _).
  split; [reflexivity |]. split; [exact Hrun | exact Hsd].
Defined.



(** ** Instances on a short run *)


Lemma trace_log_mirrors_regional_queues_witness :
  let acts :=
    [HttpRequest (request_from "Europe" "/a") 1; AddSettles 0 Resolved;
     MainJob Resolved;
     HttpRequest (request_from "Europe" "/b") 2; AddSettles 0 Resolved;
     MainJob (Rejected store_down)] in
  let e := mkLog "europeQueue" (intake_payload 1 (request_from "Europe" "/a")) in
  In e (filter (named (queue_name Europe)) (queueLogs (run acts init))) /\
  get "location" (request e) = VStr (tag Europe).
Proof.
  intros acts e.
  assert (Hin : In e (filter (named (queue_name Europe))
                        (queueLogs (run acts init))))
    by (left; reflexivity).
  split; [exact Hin |].
  exact (proj2 (trace_log_mirrors_regional_queues acts Europe) e Hin).
Defined.

Lemma trace_log_main_entries_are_intake_adds_witness :
  let acts :=
    [HttpRequest (request_from "Mars" "/a") 1;
     AddSettles 0 (Rejected store_down)] in
  let e := mkLog "mainQueue" (intake_payload 1 (request_from "Mars" "/a")) in
  In e (queueLogs (run acts init)) /\
  (queue e = "mainQueue" \/ exists r, queue e = queue_name r).
Proof.
  intros acts e.
  assert (Hin : In e (queueLogs (run acts init))) by (left; reflexivity).
  split; [exact Hin |].
  exact (proj2 (trace_log_main_entries_are_intake_adds acts) e Hin).
Defined.
